(** * NexusOS core: process scheduler and page allocator (src/hola.py)

    A shallow embedding of [ProcessScheduler] and [MemoryManager].

    Modelling conventions.
    - Python integers are [Z]; [//] is floor division, which is [Z.div].
    - A [dict] is a [gmap]; a [deque] is a [list] whose head is the left end.
    - [Process] objects are mutable and shared between the process table,
      the ready queue and the running slot, so they live in an explicit
      object store ([heap]) and the three containers hold references.
      Python never holds a dangling reference; a method of the model answers
      [None] only where the store has no object at a reference it reads, and
      [sched_total] shows that this never happens on a reachable scheduler.
    - [datetime.now()] is an input: each call site takes the clock reading
      as an argument.
    - [print] has no effect on the state and is left out. *)

From stdpp Require Import gmap strings list fin_maps sorting.

Local Open Scope Z_scope.

(* ===================================================================== *)
(** ** MemoryManager                                                     *)
(* ===================================================================== *)

Inductive ProcessState := NEW | READY | RUNNING | WAITING | TERMINATED.

#[global] Instance ProcessState_eq_dec : EqDecision ProcessState.
Proof. solve_decision. Defined.

(** class Process *)
Record Process := mkProcess {
  pid : Z;
  name : string;
  state : ProcessState;
  priority : Z;
  memory_required : Z;
  created_at : Z;
  cpu_time_used : Z
}.

(** Process.__init__(pid, name, priority, memory_required) *)
Definition Process_init (pid : Z) (name : string) (priority memory_required : Z)
    (now : Z) : Process :=
  {| pid := pid; name := name; state := NEW; priority := priority;
     memory_required := memory_required; created_at := now;
     cpu_time_used := 0 |}.

(** The value stored per page: {'process': pid, 'allocated_at': now}. *)
Record PageInfo := mkPageInfo {
  process : Z;
  allocated_at : Z
}.

Record MemoryManager := mkMemoryManager {
  total_memory : Z;
  available_memory : Z;
  memory_map : gmap nat PageInfo;
  page_size : Z
}.

Inductive MemoryError := Memoria_insuficiente.

(** MemoryManager.__init__(total_memory) *)
Definition MemoryManager_init (total : Z) : MemoryManager :=
  {| total_memory := total; available_memory := total;
     memory_map := ∅; page_size := 4096 |}.

(** The body of [for i in range(pages_needed)], iterations [i, i+1, ...]:
    [n] iterations remain, [acc] is [allocated_pages]. *)
Fixpoint allocate_loop (n : nat) (i : nat) (owner : Z) (clock : nat → Z)
    (mm : gmap nat PageInfo) (acc : list nat) : gmap nat PageInfo * list nat :=
  match n with
  | O => (mm, acc)
  | S n' =>
      let page_id := size mm in
      let mm' := <[page_id := {| process := owner; allocated_at := clock i |}]> mm in
      allocate_loop n' (S i) owner clock mm' (acc ++ [page_id])
  end.

Definition pages_needed_of (m : MemoryManager) (sz : Z) : Z :=
  (sz + page_size m - 1) / page_size m.

(** MemoryManager.allocate_memory(process, size).  The result pairs the
    manager after the call with either the raised error or the returned
    list; the [raise] comes before any assignment. *)
Definition allocate_memory (m : MemoryManager) (p : Process) (sz : Z)
    (clock : nat → Z) : MemoryManager * (MemoryError + list nat) :=
  if bool_decide (sz > available_memory m) then (m, inl Memoria_insuficiente)
  else
    let pages_needed := pages_needed_of m sz in
    let '(mm, allocated_pages) :=
      allocate_loop (Z.to_nat pages_needed) 0 (pid p) clock (memory_map m) [] in
    ({| total_memory := total_memory m;
        available_memory := available_memory m - pages_needed * page_size m;
        memory_map := mm;
        page_size := page_size m |},
     inr allocated_pages).

(** [pid for pid, info in memory_map.items() if info['process'] == process_pid] *)
Definition pages_to_free (mm : gmap nat PageInfo) (process_pid : Z) : list nat :=
  (map_to_list (filter (λ kv, process kv.2 = process_pid) mm)).*1.

(** One iteration of the loop of [free_memory]. *)
Definition free_page (m : MemoryManager) (page_id : nat) : MemoryManager :=
  {| total_memory := total_memory m;
     available_memory := available_memory m + page_size m;
     memory_map := delete page_id (memory_map m);
     page_size := page_size m |}.

(** MemoryManager.free_memory(process_pid) *)
Definition free_memory (m : MemoryManager) (process_pid : Z) : MemoryManager :=
  foldl free_page m (pages_to_free (memory_map m) process_pid).

(** A call on a memory manager, and a sequence of them. *)
Inductive MemCall :=
  | AllocateMemory (p : Process) (sz : Z) (clock : nat → Z)
  | FreeMemory (process_pid : Z).

Definition mem_call (m : MemoryManager) (c : MemCall) : MemoryManager :=
  match c with
  | AllocateMemory p sz clock => (allocate_memory m p sz clock).1
  | FreeMemory k => free_memory m k
  end.

Definition mem_run (m : MemoryManager) (cs : list MemCall) : MemoryManager :=
  foldl mem_call m cs.

(** The ids an allocation returns ([[]] when it raises). *)
Definition returned_ids (r : MemoryManager * (MemoryError + list nat)) : list nat :=
  match r.2 with inl _ => [] | inr ids => ids end.

(** availableMemory + pageSize * (live pages) = totalMemory *)
Definition conserved (m : MemoryManager) : Prop :=
  available_memory m + page_size m * Z.of_nat (size (memory_map m)) = total_memory m.

Definition proc (k : Z) : Process := Process_init k "p" 1 1024 0.
Definition clock0 : nat → Z := λ _, 0.

(* ===================================================================== *)
(** ** ProcessScheduler                                                  *)
(* ===================================================================== *)

(** [sorted(l, key=key, reverse=True)]: Python's sort is stable, and with
    [reverse=True] elements with equal keys still keep their original
    order.  An element moves behind another only when its key is strictly
    smaller. *)
Section Sorted.
Context {A : Type} (key : A → Z).

Fixpoint insert_desc (x : A) (l : list A) : list A :=
  match l with
  | [] => [x]
  | y :: l' =>
      if bool_decide (key x < key y) then y :: insert_desc x l'
      else x :: y :: l'
  end.

Fixpoint sorted_reverse (l : list A) : list A :=
  match l with
  | [] => []
  | x :: l' => insert_desc x (sorted_reverse l')
  end.
End Sorted.

Record ProcessScheduler := mkProcessScheduler {
  heap : list Process;            (* the Process objects, by reference *)
  ready_queue : list nat;
  running_process : option nat;
  processes : gmap Z nat;
  next_pid : Z;
  quantum : Z
}.

(** ProcessScheduler.__init__ *)
Definition ProcessScheduler_init : ProcessScheduler :=
  {| heap := []; ready_queue := []; running_process := None;
     processes := ∅; next_pid := 1; quantum := 3 |}.

(** Field assignments. *)
Definition with_heap (h : list Process) (s : ProcessScheduler) :=
  {| heap := h; ready_queue := ready_queue s;
     running_process := running_process s; processes := processes s;
     next_pid := next_pid s; quantum := quantum s |}.

Definition with_ready_queue (q : list nat) (s : ProcessScheduler) :=
  {| heap := heap s; ready_queue := q;
     running_process := running_process s; processes := processes s;
     next_pid := next_pid s; quantum := quantum s |}.

Definition with_running (r : option nat) (s : ProcessScheduler) :=
  {| heap := heap s; ready_queue := ready_queue s;
     running_process := r; processes := processes s;
     next_pid := next_pid s; quantum := quantum s |}.

Definition with_processes (t : gmap Z nat) (s : ProcessScheduler) :=
  {| heap := heap s; ready_queue := ready_queue s;
     running_process := running_process s; processes := t;
     next_pid := next_pid s; quantum := quantum s |}.

Definition with_next_pid (k : Z) (s : ProcessScheduler) :=
  {| heap := heap s; ready_queue := ready_queue s;
     running_process := running_process s; processes := processes s;
     next_pid := k; quantum := quantum s |}.

Definition Process_with_state (st : ProcessState) (p : Process) : Process :=
  {| pid := pid p; name := name p; state := st; priority := priority p;
     memory_required := memory_required p; created_at := created_at p;
     cpu_time_used := cpu_time_used p |}.

Definition Process_with_cpu (c : Z) (p : Process) : Process :=
  {| pid := pid p; name := name p; state := state p; priority := priority p;
     memory_required := memory_required p; created_at := created_at p;
     cpu_time_used := c |}.

(** [obj.state = st] for the object at reference [r]. *)
Definition set_state (r : nat) (st : ProcessState) (s : ProcessScheduler) :=
  with_heap (alter (Process_with_state st) r (heap s)) s.

(** [obj.cpu_time_used = c] for the object at reference [r]. *)
Definition set_cpu (r : nat) (c : Z) (s : ProcessScheduler) :=
  with_heap (alter (Process_with_cpu c) r (heap s)) s.

(** ProcessScheduler.create_process(name, priority, memory).  The new
    object gets the next free reference. *)
Definition create_process (s : ProcessScheduler) (name : string)
    (priority memory : Z) (now : Z) : ProcessScheduler * Z :=
  let pid := next_pid s in
  let process := length (heap s) in
  let s := with_heap (heap s ++ [Process_init pid name priority memory now]) s in
  let s := with_processes (<[pid := process]> (processes s)) s in
  let s := with_next_pid (next_pid s + 1) s in
  let s := set_state process READY s in
  let s := with_ready_queue (ready_queue s ++ [process]) s in
  (s, pid).

(** [sorted(self.ready_queue, key=lambda x: x.priority, reverse=True)]:
    the key of every element is read once, the keyed elements are sorted. *)
Definition keyed (h : list Process) (r : nat) : option (Z * nat) :=
  p ← h !! r; Some (priority p, r).

Definition sorted_queue (h : list Process) (q : list nat) : option (list nat) :=
  ks ← mapM (keyed h) q; Some (sorted_reverse fst ks).*2.

(** The second half of [schedule], from [if self.ready_queue:] on. *)
Definition select_next (s : ProcessScheduler) : option (ProcessScheduler * option nat) :=
  match ready_queue s with
  | [] => Some (s, None)
  | _ :: _ =>
      sq ← sorted_queue (heap s) (ready_queue s);
      match sq with
      | [] => None                       (* popleft from an empty deque *)
      | next_process :: rest =>
          let s := with_ready_queue rest s in
          let s := set_state next_process RUNNING s in
          let s := with_running (Some next_process) s in
          Some (s, Some next_process)
      end
  end.

(** ProcessScheduler.schedule() *)
Definition schedule (s : ProcessScheduler) : option (ProcessScheduler * option nat) :=
  match running_process s with
  | Some r =>
      p ← heap s !! r;
      if bool_decide (cpu_time_used p < quantum s) then Some (s, Some r)
      else
        let s := set_state r READY s in
        let s := with_ready_queue (ready_queue s ++ [r]) s in
        select_next s
  | None => select_next s
  end.

(** ProcessScheduler.terminate_process(pid) *)
Definition terminate_process (s : ProcessScheduler) (k : Z) : option ProcessScheduler :=
  match processes s !! k with
  | Some process =>
      let s := set_state process TERMINATED s in
      match running_process s with
      | Some r =>
          p ← heap s !! r;
          if bool_decide (pid p = k) then Some (with_running None s) else Some s
      | None => Some s
      end
  | None => Some s
  end.

(** ProcessScheduler.execute_cycle() *)
Definition execute_cycle (s : ProcessScheduler) : option ProcessScheduler :=
  '(s, current_process) ← schedule s;
  match current_process with
  | Some r =>
      p ← heap s !! r;
      let s := set_cpu r (cpu_time_used p + 1) s in
      if bool_decide (cpu_time_used p + 1 >= 5) then terminate_process s (pid p)
      else Some s
  | None => Some s
  end.

(** A call on a scheduler; the schedulers reachable from a new one. *)
Inductive SchedCall :=
  | CreateProcess (name : string) (priority memory now : Z)
  | Schedule
  | ExecuteCycle
  | TerminateProcess (k : Z).

Definition sched_call (s : ProcessScheduler) (c : SchedCall) : option ProcessScheduler :=
  match c with
  | CreateProcess n pr mem now => Some (create_process s n pr mem now).1
  | Schedule => fst <$> schedule s
  | ExecuteCycle => execute_cycle s
  | TerminateProcess k => terminate_process s k
  end.

Definition sched_run (s : ProcessScheduler) (cs : list SchedCall) : option ProcessScheduler :=
  foldl (λ o c, s ← o; sched_call s c) (Some s) cs.

Inductive reachable : ProcessScheduler → Prop :=
  | reach_init : reachable ProcessScheduler_init
  | reach_call s c s' : reachable s → sched_call s c = Some s' → reachable s'.

(** *** The scheduling algorithm as the specification words it *)

(** "stable-sort by priority descending, ties broken by arrival order":
    [l'] is in descending key order, and for every key the elements of
    that key are the same, in the same order, as in [l]. *)
Definition stable_sort_desc {A} (key : A → Z) (l l' : list A) : Prop :=
  StronglySorted (λ a b, key a >= key b) l'
  ∧ ∀ k, filter (λ a, key a = k) l' = filter (λ a, key a = k) l.

(** The priority of the object a reference points to. *)
Definition prio_at (h : list Process) (r : nat) : Z :=
  from_option priority 0 (h !! r).

(** Step (2): a running process whose quantum is used up goes back to
    Ready, to the back of the ready queue. *)
Inductive demoted (s : ProcessScheduler) : ProcessScheduler → Prop :=
  | demoted_none :
      running_process s = None → demoted s s
  | demoted_running r p :
      running_process s = Some r → heap s !! r = Some p →
      ¬ cpu_time_used p < 3 →
      demoted s (with_ready_queue (ready_queue s ++ [r]) (set_state r READY s)).

Inductive Schedule_spec (s : ProcessScheduler) : ProcessScheduler → option nat → Prop :=
  | spec_continue r p :
      running_process s = Some r → heap s !! r = Some p →
      cpu_time_used p < 3 →
      Schedule_spec s s (Some r)
  | spec_select s1 next rest :
      demoted s s1 →
      stable_sort_desc (prio_at (heap s1)) (ready_queue s1) (next :: rest) →
      Schedule_spec s
        (with_running (Some next)
           (set_state next RUNNING (with_ready_queue rest s1)))
        (Some next)
  | spec_idle s1 :
      demoted s s1 → ready_queue s1 = [] →
      Schedule_spec s s1 None.

(** *** What [schedule] does, field by field

    The four steps stated on the fields of the scheduler before ([s]) and
    after ([s']) and on the stored process records, with no reference to
    the assignments the method is built from.  [back] is what step (2)
    appends: the running process when its quantum is used up, nothing when
    no process runs. *)
Inductive schedule_effects (s s' : ProcessScheduler) : option nat → Prop :=
  | effects_continue r p :
      (* (1) a process runs and has quantum left: returned, nothing changes *)
      running_process s = Some r → heap s !! r = Some p →
      cpu_time_used p < 3 →
      s' = s →
      schedule_effects s s' (Some r)
  | effects_select back next rest :
      (* (2) the running process, if any, goes to the back of the queue *)
      (running_process s = None ∧ back = []
       ∨ ∃ r p, running_process s = Some r ∧ heap s !! r = Some p
                ∧ ¬ cpu_time_used p < 3 ∧ back = [r]) →
      (* (3) stable sort by priority descending; the front is popped, ... *)
      stable_sort_desc (prio_at (heap s)) (ready_queue s ++ back) (next :: rest) →
      ready_queue s' = rest →
      (* ... installed in the running slot, ... *)
      running_process s' = Some next →
      (* ... set to Running; the demoted process is Ready; every other
         process and every other field of a process is as before *)
      length (heap s') = length (heap s) →
      (∀ r p, heap s !! r = Some p →
         heap s' !! r =
           Some {| pid := pid p; name := name p;
                   state := if decide (r = next) then RUNNING
                            else if decide (r ∈ back) then READY
                            else state p;
                   priority := priority p;
                   memory_required := memory_required p;
                   created_at := created_at p;
                   cpu_time_used := cpu_time_used p |}) →
      processes s' = processes s → next_pid s' = next_pid s →
      quantum s' = quantum s →
      schedule_effects s s' (Some next)
  | effects_idle :
      (* (4) nothing runs and nothing is queued: none, nothing changes *)
      running_process s = None → ready_queue s = [] →
      s' = s →
      schedule_effects s s' None.

(** *** Invariants of a scheduler *)

(** References resolve, the table and the store agree on pids, pids in
    use are below [next_pid]. *)
Record Struct (s : ProcessScheduler) : Prop := mkStruct {
  st_quantum : quantum s = 3;
  st_queue : ∀ r, r ∈ ready_queue s → is_Some (heap s !! r);
  st_table : ∀ k r, processes s !! k = Some r →
               ∃ p, heap s !! r = Some p ∧ pid p = k;
  st_heap : ∀ r p, heap s !! r = Some p → processes s !! (pid p) = Some r;
  st_next : ∀ k, is_Some (processes s !! k) → k < next_pid s
}.

(** The process in the running slot is Running, and no other is. *)
Record Inv (s : ProcessScheduler) : Prop := mkInv {
  inv_struct : Struct s;
  inv_running : ∀ r, running_process s = Some r →
                  ∃ p, heap s !! r = Some p ∧ state p = RUNNING;
  inv_single : ∀ r p, heap s !! r = Some p → state p = RUNNING →
                 running_process s = Some r
}.

(** The state of the process with pid [k] in the process table. *)
Definition state_of (s : ProcessScheduler) (k : Z) : option ProcessState :=
  r ← processes s !! k; p ← heap s !! r; Some (state p).

(** "at most one process in the process table has state Running, and it
    is the one in the running slot" *)
Definition single_running (s : ProcessScheduler) : Prop :=
  (∀ k1 k2, state_of s k1 = Some RUNNING → state_of s k2 = Some RUNNING → k1 = k2)
  ∧ (∀ k, state_of s k = Some RUNNING →
       ∃ r, running_process s = Some r ∧ processes s !! k = Some r).

(** A run of [create_process] calls; the pids come back in call order. *)
Fixpoint create_all (s : ProcessScheduler) (args : list (string * Z * Z * Z))
    : ProcessScheduler * list Z :=
  match args with
  | [] => (s, [])
  | (n, pr, mem, now) :: args' =>
      let '(s1, k) := create_process s n pr mem now in
      let '(s2, ks) := create_all s1 args' in
      (s2, k :: ks)
  end.

(* ===================================================================== *)
(** ** NexusOS: the scheduler next to the memory manager                 *)
(* ===================================================================== *)

(** class NexusOS, the two core components.  The file system, the
    security manager and the command line are not part of the core. *)
Record NexusOS := mkNexusOS {
  scheduler : ProcessScheduler;
  memory_manager : MemoryManager
}.

(** [os.scheduler.terminate_process(pid)] *)
Definition os_terminate_process (os : NexusOS) (k : Z) : option NexusOS :=
  s ← terminate_process (scheduler os) k;
  Some {| scheduler := s; memory_manager := memory_manager os |}.

(** [os.scheduler.execute_cycle()] *)
Definition os_execute_cycle (os : NexusOS) : option NexusOS :=
  s ← execute_cycle (scheduler os);
  Some {| scheduler := s; memory_manager := memory_manager os |}.

(** [os.memory_manager.allocate_memory(process, size)], for the process
    with pid [k] of the table. *)
Definition os_allocate_memory (os : NexusOS) (k : Z) (sz : Z) (clock : nat → Z)
    : option (NexusOS * (MemoryError + list nat)) :=
  r ← processes (scheduler os) !! k;
  p ← heap (scheduler os) !! r;
  let res := allocate_memory (memory_manager os) p sz clock in
  Some ({| scheduler := scheduler os; memory_manager := res.1 |}, res.2).

(* ===================================================================== *)
(** ** Concrete schedulers used as instances                             *)
(* ===================================================================== *)

(** A(priority 2) and B(priority 1) created on a new scheduler: pids 1
    and 2, references 0 and 1, both Ready, nothing running. *)
Definition two_ready : ProcessScheduler :=
  (create_process
     (create_process ProcessScheduler_init "A" 2 1024 0).1 "B" 1 1024 0).1.

(** [two_ready] after four ticks: A is Running with [cpu_time_used = 4]. *)
Definition four_ticks : ProcessScheduler :=
  default two_ready (sched_run two_ready (replicate 4 ExecuteCycle)).

(** A and B of equal priority 1, after three ticks: A runs and has used
    up its quantum ([cpu_time_used = 3]), B waits in the ready queue. *)
Definition quantum_used : ProcessScheduler :=
  let ab := (create_process
               (create_process ProcessScheduler_init "A" 1 1024 0).1
               "B" 1 1024 0).1 in
  default ab (sched_run ab (replicate 3 ExecuteCycle)).

(** An OS whose process 2 (B) holds two pages. *)
Definition os_with_pages : NexusOS :=
  {| scheduler := two_ready;
     memory_manager :=
       (allocate_memory (MemoryManager_init 1048576)
          (Process_with_state READY (Process_init 2 "B" 1 1024 0)) 5000 clock0).1 |}.

(** The manager after: allocate 4096 for pid 1, allocate 4096 for pid 2,
    free pid 1.  Page 0 is gone, page 1 (owned by pid 2) is live. *)
Definition after_free : MemoryManager :=
  mem_run (MemoryManager_init 1048576)
    [AllocateMemory (proc 1) 4096 clock0; AllocateMemory (proc 2) 4096 clock0;
     FreeMemory 1].

(** The keys of the page map are [0 .. len-1]: no hole below the top. *)
Definition dense (mm : gmap nat PageInfo) : Prop :=
  ∀ i, is_Some (mm !! i) ↔ (i < size mm)%nat.

(* ===================================================================== *)
(** ** Further invariants of a scheduler                                 *)
(* ===================================================================== *)

(** The queue holds a process at most once and never the running one;
    [cpu_time_used] stays within 0..5; a process at 5 is out of the game;
    a Ready process is queued. *)
Record Queued (s : ProcessScheduler) : Prop := mkQueued {
  q_nodup : NoDup (ready_queue s);
  q_running : ∀ r, running_process s = Some r → r ∉ ready_queue s;
  q_cpu : ∀ r p, heap s !! r = Some p → (0 <= cpu_time_used p <= 5);
  q_done : ∀ r p, heap s !! r = Some p → cpu_time_used p = 5 →
             state p = TERMINATED ∧ (r ∉ ready_queue s)
             ∧ (running_process s ≠ Some r);
  q_state : ∀ r p, heap s !! r = Some p →
              state p = READY ∨ state p = RUNNING ∨ state p = TERMINATED;
  q_ready : ∀ r p, heap s !! r = Some p → state p = READY →
              r ∈ ready_queue s
}.

(** [p'] is [p] later on: the fields set at creation are the same and
    [cpu_time_used] has not gone down. *)
Definition same_process (p p' : Process) : Prop :=
  pid p' = pid p ∧ name p' = name p ∧ priority p' = priority p
  ∧ memory_required p' = memory_required p ∧ created_at p' = created_at p
  ∧ cpu_time_used p <= cpu_time_used p'.

(** [s'] is a later stage of [s]: every object and every table entry of
    [s] is still there. *)
Definition later_stage (s s' : ProcessScheduler) : Prop :=
  (∀ r p, heap s !! r = Some p → ∃ p', heap s' !! r = Some p' ∧ same_process p p')
  ∧ (∀ k r, processes s !! k = Some r → processes s' !! k = Some r)
  ∧ next_pid s <= next_pid s'.

(** [n] ticks in a row. *)
Definition ticks (n : nat) (s : ProcessScheduler) : option ProcessScheduler :=
  sched_run s (replicate n ExecuteCycle).

(** [two_ready] after one tick (A is Running with [cpu_time_used = 1])
    and after five (A has finished). *)
Definition one_tick : ProcessScheduler :=
  default two_ready (ticks 1 two_ready).

Definition five_ticks : ProcessScheduler :=
  default two_ready (ticks 5 two_ready).

(** A manager with 16384 bytes whose pages 0 and 1 belong to pid 1. *)
Definition two_pages : MemoryManager :=
  (allocate_memory (MemoryManager_init 16384) (proc 1) 5000 clock0).1.

(* ===================================================================== *)
(** ** SecurityManager, FileSystem and the command handlers              *)
(* ===================================================================== *)

From Stdlib Require Import Ascii.

(** The value stored per user: {'hashed_password': ..., 'created_at': ...}. *)
Record UserInfo := mkUserInfo {
  hashed_password : string;
  user_created_at : Z
}.

(** The value stored per session: {'username': ..., 'login_time': ...}. *)
Record SessionInfo := mkSessionInfo {
  username : string;
  login_time : Z
}.

Record SecurityManager := mkSecurityManager {
  users : gmap string UserInfo;
  sessions : gmap string SessionInfo
}.

(** SecurityManager.__init__ *)
Definition SecurityManager_init : SecurityManager :=
  {| users := ∅; sessions := ∅ |}.

(** class NexusCLI, the fields the handlers assign. *)
Record NexusCLI := mkNexusCLI {
  current_user : option string;
  session_id : option string
}.

(** NexusCLI.__init__ *)
Definition NexusCLI_init : NexusCLI :=
  {| current_user := None; session_id := None |}.

(** The value stored per file path. [file_size] and [file_type] are the
    dict keys 'size' and 'type'. *)
Record FileInfo := mkFileInfo {
  content : string;
  file_created_at : Z;
  file_size : Z;
  file_type : string
}.

(** The value stored per directory: {'type': 'directory', 'children': {}};
    no code fills [children]. *)
Record DirInfo := mkDirInfo {
  dir_type : string;
  children : gmap string unit
}.

Record FileSystem := mkFileSystem {
  files : gmap string FileInfo;
  directories : gmap string DirInfo;
  current_directory : string
}.

(** FileSystem.__init__ *)
Definition FileSystem_init : FileSystem :=
  {| files := ∅;
     directories := {[ "/" := {| dir_type := "directory"; children := ∅ |} ]};
     current_directory := "/" |}.

(** Does the text hold a backslash? *)
Fixpoint has_backslash (s : string) : bool :=
  match s with
  | EmptyString => false
  | String c s' => Ascii.eqb c "\"%char || has_backslash s'
  end.

(** [s.replace('\\', '/')] *)
Fixpoint replace_backslash (s : string) : string :=
  match s with
  | EmptyString => EmptyString
  | String c s' =>
      String (if Ascii.eqb c "\"%char then "/"%char else c) (replace_backslash s')
  end.

Section Library.
(** The library routines the code calls, as parameters:
    [hashlib.sha256(s.encode()).hexdigest()],
    [hashlib.md5(s.encode()).hexdigest()] and [os.path.join]. *)
Context (sha256_hex md5_hex : string → string).
Context (path_join : string → string → string).

(** SecurityManager.create_user(username, password) *)
Definition create_user (sm : SecurityManager) (username password : string)
    (now : Z) : SecurityManager :=
  {| users := <[username := {| hashed_password := sha256_hex password;
                               user_created_at := now |}]> (users sm);
     sessions := sessions sm |}.

(** SecurityManager.authenticate(username, password).  [None] is the
    answer [False]; [stamp] is the text of [datetime.now()] inside the
    session id, [now] the reading stored as login time. *)
Definition authenticate (sm : SecurityManager) (username password : string)
    (stamp : string) (now : Z) : SecurityManager * option string :=
  match users sm !! username with
  | None => (sm, None)
  | Some info =>
      let hashed_input := sha256_hex password in
      if bool_decide (hashed_password info = hashed_input) then
        let session_id := md5_hex (username ++ stamp)%string in
        ({| users := users sm;
            sessions := <[session_id := {| username := username; login_time := now |}]>
                          (sessions sm) |},
         Some session_id)
      else (sm, None)
  end.

(** [if session_id:] on what [authenticate] returned: [False] and the
    empty string are falsy. *)
Definition truthy (r : option string) : bool :=
  match r with
  | Some (String _ _) => true
  | _ => false
  end.

(** NexusCLI.handle_login(args) *)
Definition handle_login (cli : NexusCLI) (sm : SecurityManager)
    (args : list string) (stamp : string) (now : Z) : NexusCLI * SecurityManager :=
  match args with
  | username :: password :: _ =>
      let '(sm', session_id) := authenticate sm username password stamp now in
      if truthy session_id then
        ({| current_user := Some username; session_id := session_id |}, sm')
      else (cli, sm')
  | _ => (cli, sm)
  end.

(** FileSystem.create_file(filename, content) *)
Definition create_file (fs : FileSystem) (filename content : string)
    (now : Z) : FileSystem :=
  let filepath := replace_backslash (path_join (current_directory fs) filename) in
  {| files := <[filepath := {| content := content; file_created_at := now;
                               file_size := Z.of_nat (String.length content);
                               file_type := "file" |}]> (files fs);
     directories := directories fs;
     current_directory := current_directory fs |}.

(** Calls on the security manager, through the handlers or directly. *)
Inductive SecCall :=
  | CreateUser (username password : string) (now : Z)
  | Authenticate (username password stamp : string) (now : Z).

Definition sec_call (sm : SecurityManager) (c : SecCall) : SecurityManager :=
  match c with
  | CreateUser u pw now => create_user sm u pw now
  | Authenticate u pw stamp now => (authenticate sm u pw stamp now).1
  end.

(** A session of the command line: users are created, logins are tried. *)
Inductive ShellCall :=
  | ShCreateUser (username password : string) (now : Z)
  | ShLogin (args : list string) (stamp : string) (now : Z).

Definition shell_call (st : NexusCLI * SecurityManager) (c : ShellCall)
    : NexusCLI * SecurityManager :=
  match c with
  | ShCreateUser u pw now => (st.1, create_user st.2 u pw now)
  | ShLogin args stamp now => handle_login st.1 st.2 args stamp now
  end.

(** A run of [create_file] calls. *)
Definition create_files (fs : FileSystem) (cs : list (string * string * Z)) : FileSystem :=
  foldl (λ fs c, create_file fs c.1.1 c.1.2 c.2) fs cs.
End Library.

(** NexusOS.initialize_system, the part on the security manager. *)
Definition initial_users (sha256_hex : string → string) : SecurityManager :=
  create_user sha256_hex
    (create_user sha256_hex SecurityManager_init "admin" "admin123" 0)
    "usuario" "clave123" 0.

(** Stand-ins for the library routines, for the instances below. *)
Definition toy_hash (s : string) : string := ("#" ++ s)%string.
Definition toy_join (d f : string) : string := (d ++ f)%string.

(* ===================================================================== *)
(** * Theorems                                                           *)
(* ===================================================================== *)

(* ===================================================================== *)
(** ** MemoryManager: results                                            *)
(* ===================================================================== *)

Lemma after_free_state :
  memory_map after_free = {[ 1%nat := {| process := 2; allocated_at := 0 |} ]}
  ∧ available_memory after_free = 1048576 - 4096
  ∧ conserved after_free.
Proof. by vm_compute. Qed.

(** C1 (the code breaks it): on a manager of 1048576 bytes, after
    allocate(pid 1, 4096); allocate(pid 2, 4096); free(pid 1);
    allocate(pid 3, 4096) the last allocation takes page id
    [len(memory_map) = 1], which is the live page of pid 2: one page is
    live, 8192 bytes are gone from [available_memory], and
    availableMemory + 4096 * livePages is 4096 short of totalMemory. *)
Theorem conservation_lost_after_free :
  let m := mem_call after_free (AllocateMemory (proc 3) 4096 clock0) in
  size (memory_map m) = 1%nat
  ∧ available_memory m = 1048576 - 8192
  ∧ total_memory m = 1048576
  ∧ available_memory m + 4096 * Z.of_nat (size (memory_map m)) = total_memory m - 4096
  ∧ ¬ conserved m.
Proof. by vm_compute. Qed.

(** C2 (the code breaks it): the page id is [len(memory_map)], not a
    counter.  After allocate(pid 1, 4096); allocate(pid 2, 4096);
    free(pid 1), page 1 is live and owned by pid 2, and an allocation for
    pid 3 returns id 1 again and takes the page over.  Likewise
    allocate; free; allocate on a new manager returns id 0 twice. *)
Theorem page_id_reissued :
  (memory_map after_free !! 1%nat = Some {| process := 2; allocated_at := 0 |}
   ∧ let r := allocate_memory after_free (proc 3) 4096 clock0 in
     r.2 = inr [1%nat]
     ∧ memory_map r.1 !! 1%nat = Some {| process := 3; allocated_at := 0 |})
  ∧ (let m0 := MemoryManager_init 1048576 in
     let r1 := allocate_memory m0 (proc 1) 4096 clock0 in
     let r2 := allocate_memory (free_memory r1.1 1) (proc 1) 4096 clock0 in
     r1.2 = inr [0%nat] ∧ r2.2 = inr [0%nat]).
Proof. by vm_compute. Qed.

(** C7 (the code breaks it): after allocate(pid 1, 4096);
    allocate(pid 2, 4096); free(pid 1), a successful request of 8192
    bytes for pid 3 has pagesNeeded = 2 and takes 8192 bytes from
    [available_memory], but it returns [1; 1] and the page map still holds
    one page: no new page record exists, the live page of pid 2 was
    overwritten twice. *)
Theorem allocation_overwrites_live_page :
  let r := allocate_memory after_free (proc 3) 8192 clock0 in
  pages_needed_of after_free 8192 = 2
  ∧ r.2 = inr [1%nat; 1%nat]
  ∧ size (memory_map after_free) = 1%nat
  ∧ size (memory_map r.1) = 1%nat
  ∧ memory_map r.1 = {[ 1%nat := {| process := 3; allocated_at := 0 |} ]}
  ∧ available_memory r.1 = available_memory after_free - 8192.
Proof. by vm_compute. Qed.

(** C5: [allocate_memory] raises exactly when [size > available_memory]
    (the raw request, whatever the rounded page cost is), and when it
    raises the manager, so the page map and [available_memory], is as
    before. *)
Theorem allocate_memory_raises_iff (m : MemoryManager) (p : Process) (sz : Z)
    (clock : nat → Z) :
  ((allocate_memory m p sz clock).2 = inl Memoria_insuficiente
     ↔ sz > available_memory m)
  ∧ (sz > available_memory m →
       (allocate_memory m p sz clock).1 = m
       ∧ memory_map (allocate_memory m p sz clock).1 = memory_map m
       ∧ available_memory (allocate_memory m p sz clock).1 = available_memory m)
  ∧ (¬ sz > available_memory m →
       ∃ ids, (allocate_memory m p sz clock).2 = inr ids).
Proof.
  unfold allocate_memory. case_bool_decide as Hsz.
  - split_and!; [done | done | intros []; lia].
  - destruct (allocate_loop _ _ _ _ _ _) as [mm ids] eqn:E. simpl.
    split_and!; [split; [done | lia] | lia | eauto].
Qed.

(** The comparison is on the raw request: with 5000 bytes available a
    request of 5000 succeeds at a page cost of 8192. *)
Example raw_byte_check :
  let r := allocate_memory (MemoryManager_init 5000) (proc 1) 5000 clock0 in
  r.2 = inr [0%nat; 1%nat] ∧ available_memory r.1 = 5000 - 8192.
Proof. by vm_compute. Qed.

(* ===================================================================== *)
(** ** MemoryManager: what holds in general                              *)
(* ===================================================================== *)

(** [free_memory] keeps the books: every page it deletes gives
    [page_size] back. *)
Lemma free_pages_conserved (l : list nat) (m : MemoryManager) :
  NoDup l → (∀ i, i ∈ l → is_Some (memory_map m !! i)) →
  conserved m → conserved (foldl free_page m l).
Proof.
  revert m. induction l as [|i l IH]; intros m Hnd Hin Hc; [done|].
  apply NoDup_cons in Hnd as [Hi Hnd]. simpl. apply IH; [done|..].
  - intros j Hj. simpl. rewrite lookup_delete_ne; [apply Hin; by right|].
    intros ->. done.
  - destruct (Hin i) as [x Hx]; [left|].
    unfold conserved in *. simpl.
    rewrite (map_size_delete_Some i (memory_map m) (mk_is_Some _ _ Hx)).
    pose proof (map_size_ne_0_lookup_2 (memory_map m) i (mk_is_Some _ _ Hx)).
    replace (Z.of_nat (pred (size (memory_map m))))
      with (Z.of_nat (size (memory_map m)) - 1) by lia.
    lia.
Qed.

Lemma free_memory_conserved (m : MemoryManager) (k : Z) :
  conserved m → conserved (free_memory m k).
Proof.
  intros Hc. apply free_pages_conserved; [apply NoDup_fst_map_to_list| |done].
  intros i ([i' x] & -> & Hix)%list_elem_of_fmap.
  apply elem_of_map_to_list, map_lookup_filter_Some in Hix as [Hx _]. eauto.
Qed.

(** On a page map without holes the loop of [allocate_memory] adds [n]
    pages under the next [n] ids and touches no other page. *)
Lemma allocate_loop_dense n i o clock (mm : gmap nat PageInfo) acc :
  dense mm →
  let r := allocate_loop n i o clock mm acc in
  dense r.1
  ∧ size r.1 = (size mm + n)%nat
  ∧ r.2 = acc ++ seq (size mm) n
  ∧ (∀ j, (j < size mm)%nat → r.1 !! j = mm !! j)
  ∧ (∀ j, (size mm ≤ j < size mm + n)%nat → process <$> r.1 !! j = Some o).
Proof.
  revert i mm acc. induction n as [|n IH]; intros i mm acc Hd; simpl.
  - split_and!; [done | lia | by rewrite app_nil_r | done | lia].
  - set (mm' := <[size mm := _]> mm).
    assert (mm !! size mm = None) as Hfresh.
    { destruct (mm !! size mm) eqn:E; [|done].
      pose proof (proj1 (Hd (size mm)) (mk_is_Some _ _ E)). lia. }
    assert (size mm' = S (size mm)) as Hsz by (by apply map_size_insert_None).
    assert (dense mm') as Hd'.
    { intros j. rewrite Hsz. unfold mm'. rewrite lookup_insert.
      case_decide as E; [subst; split; [lia | eauto]|].
      rewrite (Hd j). lia. }
    destruct (IH (S i) mm' (acc ++ [size mm]) Hd') as (H1 & H2 & H3 & H4 & H5).
    split_and!; [done | lia | | |].
    + rewrite H3, Hsz, <- app_assoc. done.
    + intros j Hj. rewrite H4 by lia. unfold mm'. rewrite lookup_insert_ne; [done|lia].
    + intros j Hj. destruct (decide (j = size mm)) as [->|Hne].
      * rewrite H4 by lia. unfold mm'. by rewrite lookup_insert_eq.
      * apply H5. lia.
Qed.

(** On a manager whose page map has no hole, a successful request of
    [sz >= 0] bytes adds ceil(sz / 4096) new pages owned by the process,
    returns their ids, takes the rounded cost from [available_memory] and
    keeps memory conserved. *)
Lemma allocate_memory_dense (m : MemoryManager) (p : Process) (sz : Z) clock :
  page_size m = 4096 → dense (memory_map m) →
  0 <= sz <= available_memory m →
  let r := allocate_memory m p sz clock in
  let n := Z.to_nat ((sz + 4095) / 4096) in
  4096 * ((sz + 4095) / 4096 - 1) < sz <= 4096 * ((sz + 4095) / 4096)
  ∧ r.2 = inr (seq (size (memory_map m)) n)
  ∧ size (memory_map r.1) = (size (memory_map m) + n)%nat
  ∧ available_memory r.1 = available_memory m - 4096 * Z.of_nat n
  ∧ (∀ j, j ∈ seq (size (memory_map m)) n →
       memory_map m !! j = None ∧ process <$> memory_map r.1 !! j = Some (pid p))
  ∧ (∀ j, (j < size (memory_map m))%nat → memory_map r.1 !! j = memory_map m !! j)
  ∧ dense (memory_map r.1)
  ∧ (conserved m → conserved r.1).
Proof.
  intros Hps Hd Hsz. unfold allocate_memory, pages_needed_of. rewrite Hps.
  rewrite bool_decide_eq_false_2 by lia.
  replace (sz + 4096 - 1) with (sz + 4095) by lia.
  pose proof (allocate_loop_dense (Z.to_nat ((sz + 4095) / 4096)) 0 (pid p)
                clock (memory_map m) [] Hd) as (H1 & H2 & H3 & H4 & H5).
  destruct (allocate_loop _ _ _ _ _ _) as [mm ids]. simpl in *.
  assert (0 <= (sz + 4095) / 4096) by (apply Z.div_pos; lia).
  pose proof (Z.mul_div_le (sz + 4095) 4096 ltac:(lia)).
  pose proof (Z.mul_succ_div_gt (sz + 4095) 4096 ltac:(lia)).
  split_and!; try done; try lia.
  - by rewrite H3.
  - intros j Hj%elem_of_seq. split; [|apply H5; lia].
    destruct (memory_map m !! j) eqn:E; [|done].
    pose proof (proj1 (Hd j) (mk_is_Some _ _ E)). lia.
  - unfold conserved. simpl. rewrite Hps, H2. lia.
Qed.

(** So a run of successful or failed allocations of non-negative sizes on
    a new manager, with no [free_memory] in between, conserves memory. *)
Lemma allocations_conserved (total : Z) (cs : list MemCall) :
  Forall (λ c, match c with AllocateMemory _ sz _ => 0 <= sz | FreeMemory _ => False end) cs →
  conserved (mem_run (MemoryManager_init total) cs)
  ∧ dense (memory_map (mem_run (MemoryManager_init total) cs)).
Proof.
  assert (∀ m, page_size m = 4096 ∧ dense (memory_map m) ∧ conserved m →
    Forall (λ c, match c with AllocateMemory _ sz _ => 0 <= sz | FreeMemory _ => False end) cs →
    conserved (mem_run m cs) ∧ dense (memory_map (mem_run m cs))) as Hgen.
  { induction cs as [|c cs IH]; intros m (Hps & Hd & Hc) Hall; [done|].
    apply Forall_cons in Hall as [Hc0 Hall]. destruct c as [p sz clock|]; [|done].
    simpl. apply IH; [|done]. unfold mem_call.
    destruct (decide (sz > available_memory m)) as [Hgt|Hle].
    - unfold allocate_memory. by rewrite bool_decide_eq_true_2.
    - destruct (allocate_memory_dense m p sz clock Hps Hd ltac:(lia))
        as (_ & _ & _ & _ & _ & _ & Hd' & Hc').
      split_and!; [|done|by apply Hc'].
      unfold allocate_memory. rewrite bool_decide_eq_false_2 by done.
      by destruct (allocate_loop _ _ _ _ _ _). }
  apply Hgen. split_and!; [done| |].
  - intros i. simpl. rewrite lookup_empty, map_size_empty. split; [by intros [? ?] | lia].
  - unfold conserved. simpl. rewrite map_size_empty. lia.
Qed.

(** The 5000-byte request of the specification, on a new manager. *)
Example five_thousand_bytes :
  let r := allocate_memory (MemoryManager_init 1048576) (proc 1) 5000 clock0 in
  r.2 = inr [0%nat; 1%nat]
  ∧ size (memory_map r.1) = 2%nat
  ∧ available_memory r.1 = 1048576 - 8192.
Proof. by vm_compute. Qed.

(* ===================================================================== *)
(** ** Sorting                                                           *)
(* ===================================================================== *)

Section SortedFacts.
Context {A : Type} (key : A → Z).

Local Notation "'ge_key'" := (λ a b : A, key a >= key b).
Local Notation "'has_key' k" := (λ a : A, key a = k) (at level 10, k at level 9).

Lemma insert_desc_perm x l : insert_desc key x l ≡ₚ x :: l.
Proof.
  induction l as [|y l IH]; simpl; [done|].
  case_bool_decide; [|done]. rewrite IH. apply Permutation_swap.
Qed.

Lemma sorted_reverse_perm l : sorted_reverse key l ≡ₚ l.
Proof.
  induction l as [|x l IH]; simpl; [done|].
  by rewrite insert_desc_perm, IH.
Qed.

Lemma sorted_reverse_length l : length (sorted_reverse key l) = length l.
Proof. by rewrite sorted_reverse_perm. Qed.

Lemma insert_desc_sorted x l :
  StronglySorted ge_key l → StronglySorted ge_key (insert_desc key x l).
Proof.
  induction 1 as [|y l Hl IH Hy]; simpl.
  - repeat constructor.
  - case_bool_decide as Hlt.
    + constructor; [done|].
      rewrite insert_desc_perm. constructor; [lia | done].
    + constructor; [by constructor|].
      constructor; [lia|].
      eapply Forall_impl; [exact Hy|]. simpl. intros; lia.
Qed.

Lemma sorted_reverse_sorted l : StronglySorted ge_key (sorted_reverse key l).
Proof.
  induction l; simpl; [constructor | by apply insert_desc_sorted].
Qed.

Lemma insert_desc_filter k x l :
  filter (has_key k) (insert_desc key x l) = filter (has_key k) (x :: l).
Proof.
  induction l as [|y l IH]; simpl; [done|].
  case_bool_decide as Hlt; [|done].
  rewrite (filter_cons _ y), IH, !(filter_cons _ x), !(filter_cons _ y).
  repeat case_decide; try done; lia.
Qed.

Lemma sorted_reverse_filter k l :
  filter (has_key k) (sorted_reverse key l) = filter (has_key k) l.
Proof.
  induction l as [|x l IH]; simpl; [done|].
  by rewrite insert_desc_filter, !(filter_cons _ x), IH.
Qed.

(** Python's [sorted(..., reverse=True)] is the stable descending sort. *)
Lemma sorted_reverse_stable l : stable_sort_desc key l (sorted_reverse key l).
Proof.
  split; [apply sorted_reverse_sorted | intros; apply sorted_reverse_filter].
Qed.

Lemma filter_key_elem k (l : list A) x :
  x ∈ filter (has_key k) l ↔ key x = k ∧ x ∈ l.
Proof. by rewrite list_elem_of_filter. Qed.

(** Two descending lists with the same elements per key, in the same
    order, are the same list. *)
Lemma sorted_by_key_unique l1 l2 :
  StronglySorted ge_key l1 → StronglySorted ge_key l2 →
  (∀ k, filter (has_key k) l1 = filter (has_key k) l2) →
  l1 = l2.
Proof.
  intros H1. revert l2. induction H1 as [|x l1 Hs1 IH Hx]; intros l2 H2 Hf.
  - destruct l2 as [|y l2]; [done|].
    specialize (Hf (key y)). rewrite filter_cons_True in Hf by done.
    by rewrite filter_nil in Hf.
  - destruct H2 as [|y l2 Hs2 Hy].
    { specialize (Hf (key x)). rewrite filter_cons_True in Hf by done.
      by rewrite filter_nil in Hf. }
    assert (key x = key y) as Hk.
    { assert (x ∈ y :: l2) as Hin.
      { eapply (filter_key_elem (key x)). rewrite <- Hf.
        rewrite filter_cons_True by done. left. }
      assert (y ∈ x :: l1) as Hin'.
      { eapply (filter_key_elem (key y)). rewrite Hf.
        rewrite filter_cons_True by done. left. }
      rewrite Forall_forall in Hx, Hy.
      apply elem_of_cons in Hin as [->|Hin]; [done|].
      apply elem_of_cons in Hin' as [->|Hin']; [done|].
      specialize (Hx _ Hin'). specialize (Hy _ Hin). simpl in *. lia. }
    assert (x = y) as ->.
    { specialize (Hf (key x)).
      rewrite filter_cons_True in Hf by done.
      rewrite filter_cons_True in Hf by done. congruence. }
    f_equal. apply IH; [done|]. intros k. specialize (Hf k).
    rewrite !(filter_cons _ y) in Hf. case_decide; congruence.
Qed.

Lemma stable_sort_desc_unique l l1 l2 :
  stable_sort_desc key l l1 → stable_sort_desc key l l2 → l1 = l2.
Proof.
  intros [H1 F1] [H2 F2]. apply sorted_by_key_unique; [done..|].
  intros k. by rewrite F1, F2.
Qed.

Lemma stable_sort_desc_elem l l' x :
  stable_sort_desc key l l' → x ∈ l' ↔ x ∈ l.
Proof.
  intros [_ F]. specialize (F (key x)).
  split; intros Hin.
  - eapply (filter_key_elem (key x)). rewrite <- F.
    by apply filter_key_elem.
  - eapply (filter_key_elem (key x)). rewrite F.
    by apply filter_key_elem.
Qed.
End SortedFacts.


(* ===================================================================== *)
(** ** ProcessScheduler: the object store and the sorted queue           *)
(* ===================================================================== *)

Lemma insert_desc_decorate (f : nat → Z) x l :
  insert_desc fst (f x, x) ((λ r, (f r, r)) <$> l)
  = (λ r, (f r, r)) <$> insert_desc f x l.
Proof.
  induction l as [|y l IH]; [done|].
  rewrite fmap_cons. cbn [insert_desc fst].
  case_bool_decide; [by rewrite IH | done].
Qed.

Lemma sorted_reverse_decorate (f : nat → Z) l :
  sorted_reverse fst ((λ r, (f r, r)) <$> l)
  = (λ r, (f r, r)) <$> sorted_reverse f l.
Proof.
  induction l as [|x l IH]; [done|].
  rewrite fmap_cons. cbn [sorted_reverse].
  by rewrite IH, insert_desc_decorate.
Qed.

Lemma keyed_Some h r kr :
  keyed h r = Some kr ↔ is_Some (h !! r) ∧ kr = (prio_at h r, r).
Proof.
  unfold keyed, prio_at. destruct (h !! r) as [p|]; simpl.
  - split; [intros [= <-]; eauto | intros [_ ->]; done].
  - split; [done | intros [[? [=]] _]].
Qed.

Lemma mapM_keyed h q ks :
  mapM (keyed h) q = Some ks
  ↔ Forall (λ r, is_Some (h !! r)) q ∧ ks = (λ r, (prio_at h r, r)) <$> q.
Proof.
  rewrite mapM_Some. split.
  - induction 1 as [|r kr q ks Hr _ [IH1 IH2]]; [done|].
    apply keyed_Some in Hr as [? ->]. split; [by constructor|].
    simpl. by rewrite IH2.
  - intros [Hq ->]. induction Hq as [|r q Hr _ IH]; simpl; constructor; [|done].
    by apply keyed_Some.
Qed.

(** On a queue whose references resolve, [sorted_queue] is the stable
    descending sort by the priority of the referenced objects; on any
    other queue it has no result. *)
Lemma sorted_queue_Some h q sq :
  sorted_queue h q = Some sq
  ↔ Forall (λ r, is_Some (h !! r)) q ∧ sq = sorted_reverse (prio_at h) q.
Proof.
  unfold sorted_queue. destruct (mapM (keyed h) q) as [ks|] eqn:E; simpl.
  - apply mapM_keyed in E as [Hq ->].
    rewrite sorted_reverse_decorate, <- list_fmap_compose.
    replace (snd ∘ (λ r, (prio_at h r, r))) with (@id nat) by done.
    rewrite list_fmap_id. split; [by intros [= <-] | by intros [_ ->]].
  - split; [done|]. intros [Hq _].
    assert (is_Some (mapM (keyed h) q)) as [? ?]; [|congruence].
    apply mapM_is_Some. eapply Forall_impl; [exact Hq|].
    intros r Hr. simpl. eexists. by apply keyed_Some.
Qed.

Lemma sorted_reverse_nil_inv {A} (key : A → Z) l :
  sorted_reverse key l = [] → l = [].
Proof.
  intros E. apply (f_equal length) in E.
  rewrite sorted_reverse_length in E. by destruct l.
Qed.

(** [select_next] on a queue whose references resolve. *)
Lemma select_next_eq s :
  Forall (λ r, is_Some (heap s !! r)) (ready_queue s) →
  select_next s =
    match sorted_reverse (prio_at (heap s)) (ready_queue s) with
    | [] => Some (s, None)
    | next :: rest =>
        Some (with_running (Some next)
                (set_state next RUNNING (with_ready_queue rest s)), Some next)
    end.
Proof.
  intros Hq. unfold select_next.
  destruct (ready_queue s) as [|r q] eqn:Eq; [done|].
  rewrite <- Eq in *.
  rewrite (proj2 (sorted_queue_Some _ _ _) (conj Hq eq_refl)). simpl.
  destruct (sorted_reverse _ _) as [|next rest] eqn:Es; [|done].
  apply sorted_reverse_nil_inv in Es. congruence.
Qed.

(** Assignments to [state] and [cpu_time_used] keep pid and priority. *)
Lemma lookup_set_field (f : Process → Process) r r' (h : list Process) :
  alter f r h !! r' = if decide (r = r') then f <$> h !! r' else h !! r'.
Proof.
  case_decide as E; [subst; apply list_lookup_alter_eq | by apply list_lookup_alter_ne].
Qed.

Lemma is_Some_set_field (f : Process → Process) r r' (h : list Process) :
  is_Some (alter f r h !! r') ↔ is_Some (h !! r').
Proof. by rewrite !lookup_lt_is_Some, length_alter. Qed.

Lemma prio_at_set_field (f : Process → Process) r (h : list Process) :
  (∀ p, priority (f p) = priority p) →
  ∀ r', prio_at (alter f r h) r' = prio_at h r'.
Proof.
  intros Hf r'. unfold prio_at. rewrite lookup_set_field.
  case_decide; [|done]. destruct (h !! r'); simpl; [apply Hf | done].
Qed.

Lemma sorted_reverse_ext {A} (f g : A → Z) l :
  (∀ x, f x = g x) → sorted_reverse f l = sorted_reverse g l.
Proof.
  intros E. induction l as [|x l IH]; simpl; [done|]. rewrite IH.
  generalize (sorted_reverse g l). intros l'.
  induction l' as [|y l' IH']; simpl; [done|]. by rewrite !E, IH'.
Qed.

(* ===================================================================== *)
(** ** ProcessScheduler: [schedule] against the worded algorithm         *)
(* ===================================================================== *)

Lemma Forall_queue_valid s :
  (∀ r, r ∈ ready_queue s → is_Some (heap s !! r)) ↔
  Forall (λ r, is_Some (heap s !! r)) (ready_queue s).
Proof. by rewrite Forall_forall. Qed.

Lemma stable_sort_desc_cons_inv {A} (key : A → Z) l next rest :
  stable_sort_desc key l (next :: rest) →
  sorted_reverse key l = next :: rest.
Proof.
  intros H. eapply stable_sort_desc_unique; [apply sorted_reverse_stable | done].
Qed.

Lemma schedule_sound s s' res :
  quantum s = 3 → schedule s = Some (s', res) → Schedule_spec s s' res.
Proof.
  intros Hq. unfold schedule.
  assert (∀ s1, demoted s s1 → select_next s1 = Some (s', res) →
            Schedule_spec s s' res) as Hsel.
  { intros s1 Hd. unfold select_next.
    destruct (ready_queue s1) as [|r0 q0] eqn:Eq.
    { intros [= <- <-]. by apply spec_idle. }
    rewrite <- Eq. destruct (sorted_queue _ _) as [sq|] eqn:Es; [|done].
    apply sorted_queue_Some in Es as [_ ->]. simpl.
    destruct (sorted_reverse _ _) as [|next rest] eqn:E; [done|].
    intros [= <- <-]. apply spec_select; [done|].
    rewrite <- E. apply sorted_reverse_stable. }
  destruct (running_process s) as [r|] eqn:Er.
  - destruct (heap s !! r) as [p|] eqn:Ep; [|done]. simpl.
    rewrite Hq. case_bool_decide as Hc.
    + intros [= <- <-]. by eapply spec_continue.
    + apply Hsel. by eapply demoted_running.
  - apply Hsel. by apply demoted_none.
Qed.

Lemma demoted_queue_valid s s1 :
  (∀ r, r ∈ ready_queue s → is_Some (heap s !! r)) →
  demoted s s1 →
  ∀ r, r ∈ ready_queue s1 → is_Some (heap s1 !! r).
Proof.
  intros Hv [Hn|r0 p Hr Hp Hc] r; [by apply Hv|]. simpl.
  rewrite is_Some_set_field, elem_of_app, list_elem_of_singleton.
  intros [?| ->]; [by apply Hv | by eexists].
Qed.

Lemma schedule_complete s s' res :
  quantum s = 3 →
  (∀ r, r ∈ ready_queue s → is_Some (heap s !! r)) →
  Schedule_spec s s' res → schedule s = Some (s', res).
Proof.
  intros Hq Hv.
  assert (∀ s1, demoted s s1 → schedule s = select_next s1) as Hdem.
  { intros s1 [Hn|r0 p Hr Hp Hc]; unfold schedule.
    - by rewrite Hn.
    - rewrite Hr, Hp. simpl. rewrite Hq. by rewrite bool_decide_eq_false_2. }
  intros [r p Hr Hp Hc|s1 next rest Hd Hs|s1 Hd He].
  - unfold schedule. rewrite Hr, Hp. simpl. rewrite Hq.
    by rewrite bool_decide_eq_true_2.
  - rewrite (Hdem _ Hd), select_next_eq.
    + by rewrite (stable_sort_desc_cons_inv _ _ _ _ Hs).
    + apply Forall_queue_valid. by eapply demoted_queue_valid.
  - rewrite (Hdem _ Hd). unfold select_next. by rewrite He.
Qed.

(** The worded algorithm fixes the outcome. *)
Lemma Schedule_spec_functional s s1 r1 s2 r2 :
  quantum s = 3 →
  (∀ r, r ∈ ready_queue s → is_Some (heap s !! r)) →
  Schedule_spec s s1 r1 → Schedule_spec s s2 r2 → s1 = s2 ∧ r1 = r2.
Proof.
  intros Hq Hv H1 H2.
  apply schedule_complete in H1, H2; [|done..].
  rewrite H1 in H2. by injection H2.
Qed.

(* ===================================================================== *)
(** ** ProcessScheduler: invariants of the reachable schedulers          *)
(* ===================================================================== *)

Lemma Struct_set_field (f : Process → Process) r s :
  (∀ p, pid (f p) = pid p) →
  Struct s → Struct (with_heap (alter f r (heap s)) s).
Proof.
  intros Hf [Hq Hv Ht Hh Hn]. split; simpl; try done.
  - intros r' Hr'. rewrite is_Some_set_field. by apply Hv.
  - intros k r' Hk. destruct (Ht _ _ Hk) as (p & Hp & Hpid).
    rewrite lookup_set_field. case_decide; rewrite Hp; simpl; eauto.
    eexists; split; [done|]. by rewrite Hf.
  - intros r' p. rewrite lookup_set_field. case_decide; [|by apply Hh].
    destruct (heap s !! r') as [p'|] eqn:Ep; simpl; [|done].
    intros [= <-]. rewrite Hf. by apply Hh.
Qed.

Lemma Struct_with_ready_queue q s :
  Struct s → (∀ r, r ∈ q → is_Some (heap s !! r)) →
  Struct (with_ready_queue q s).
Proof. intros [Hq Hv Ht Hh Hn] Hv'. by split. Qed.

Lemma Struct_with_running o s : Struct s → Struct (with_running o s).
Proof. intros [Hq Hv Ht Hh Hn]. by split. Qed.

Lemma Struct_init : Struct ProcessScheduler_init.
Proof.
  split; simpl; try done.
  - intros r Hr. by apply elem_of_nil in Hr.
  - intros k [? Hk]. by rewrite lookup_empty in Hk.
Qed.

Lemma Inv_init : Inv ProcessScheduler_init.
Proof. split; [apply Struct_init | done..]. Qed.

(** What [create_process] builds. *)
Lemma create_process_eq s n pr mem now :
  create_process s n pr mem now =
    ({| heap := heap s ++ [Process_with_state READY (Process_init (next_pid s) n pr mem now)];
        ready_queue := ready_queue s ++ [length (heap s)];
        running_process := running_process s;
        processes := <[next_pid s := length (heap s)]> (processes s);
        next_pid := next_pid s + 1;
        quantum := quantum s |}, next_pid s).
Proof.
  unfold create_process, set_state, with_ready_queue, with_heap; simpl.
  do 2 f_equal.
  apply list_eq. intros i. rewrite lookup_set_field. case_decide as E.
  - subst i. by rewrite !list_lookup_middle.
  - destruct (decide (i < length (heap s))%nat).
    + by rewrite !lookup_app_l.
    + rewrite !lookup_ge_None_2; [done|..]; rewrite length_app; simpl; lia.
Qed.

Lemma Inv_create_process s n pr mem now :
  Inv s → Inv (create_process s n pr mem now).1.
Proof.
  intros [[Hq Hv Ht Hh Hn] Hr Hs]. rewrite create_process_eq. simpl.
  assert (processes s !! next_pid s = None) as Hfresh.
  { destruct (processes s !! next_pid s) eqn:E; [|done].
    specialize (Hn (next_pid s)). rewrite E in Hn. specialize (Hn (mk_is_Some _ _ eq_refl)). lia. }
  split; [split|..]; simpl; try done.
  - intros r. rewrite elem_of_app, list_elem_of_singleton.
    intros [Hin| ->].
    + destruct (Hv _ Hin) as [p Hp]. exists p. by apply lookup_app_l_Some.
    + rewrite list_lookup_middle; eauto.
  - intros k r. rewrite lookup_insert. case_decide as E.
    + intros [= <-]. subst k. rewrite list_lookup_middle by done. eauto.
    + intros Hk. destruct (Ht _ _ Hk) as (p & Hp & Hpid).
      exists p. split; [by apply lookup_app_l_Some | done].
  - intros r p. rewrite lookup_snoc_Some. intros [[Hlt Hp]|[-> <-]].
    + rewrite lookup_insert_ne; [by apply Hh|].
      intros E. apply Hh in Hp. rewrite <- E in Hp. congruence.
    + simpl. by rewrite lookup_insert_eq.
  - intros k. rewrite lookup_insert. case_decide as E; [lia|].
    intros Hk. specialize (Hn _ Hk). lia.
  - intros r Er. destruct (Hr _ Er) as (p & Hp & Hst).
    exists p. split; [by apply lookup_app_l_Some | done].
  - intros r p. rewrite lookup_snoc_Some. intros [[Hlt Hp]|[-> <-]]; [by eapply Hs|done].
Qed.

(** After step (2) no process is Running. *)
Lemma demoted_none_running s s1 :
  Inv s → demoted s s1 →
  Struct s1 ∧ ∀ r p, heap s1 !! r = Some p → state p ≠ RUNNING.
Proof.
  intros [HS Hr Hs] [Hn|r0 p0 Er Ep Hc].
  - split; [done|]. intros r p Hp Hst.
    specialize (Hs _ _ Hp Hst). congruence.
  - split.
    + apply Struct_with_ready_queue; [by apply Struct_set_field|].
      simpl. intros r. rewrite is_Some_set_field, elem_of_app, list_elem_of_singleton.
      intros [?| ->]; [by apply HS | by eexists].
    + simpl. intros r p. rewrite lookup_set_field. case_decide as E.
      * destruct (heap s !! r); simpl; [|done]. by intros [= <-].
      * intros Hp Hst. specialize (Hs _ _ Hp Hst). congruence.
Qed.

Lemma Inv_Schedule_spec s s' res :
  Inv s → Schedule_spec s s' res →
  Inv s' ∧ (∀ r, res = Some r → running_process s' = Some r)
         ∧ (res = None → s' = s ∧ running_process s = None ∧ ready_queue s = []).
Proof.
  intros HI [r p Hr Hp Hc|s1 next rest Hd Hsort|s1 Hd He].
  - split_and!; [done | by intros ? [= <-] | done].
  - destruct (demoted_none_running _ _ HI Hd) as [HS1 Hno].
    assert (∀ x, x ∈ next :: rest → is_Some (heap s1 !! x)) as Hval.
    { intros x Hx. apply HS1.
      by apply (stable_sort_desc_elem _ _ _ x Hsort). }
    split_and!; [|by intros ? [= <-]|done].
    split.
    + apply Struct_with_running.
      apply (Struct_set_field _ _ (with_ready_queue rest s1)); [done|].
      apply Struct_with_ready_queue; [done|].
      intros x Hx. apply Hval. by right.
    + simpl. intros r [= <-]. destruct (Hval next) as [p Hp]; [left|].
      exists (Process_with_state RUNNING p). split; [|done].
      by rewrite list_lookup_alter_eq, Hp.
    + simpl. intros r p. rewrite lookup_set_field. case_decide as E; [by subst|].
      intros Hp Hst. by destruct (Hno _ _ Hp).
  - destruct Hd as [Hn|r0 p0 Er Ep Hc].
    + split_and!; done.
    + simpl in He. by destruct (ready_queue s).
Qed.

Lemma Inv_schedule s s' res :
  Inv s → schedule s = Some (s', res) →
  Inv s' ∧ (∀ r, res = Some r → running_process s' = Some r)
         ∧ (res = None → s' = s ∧ running_process s = None ∧ ready_queue s = []).
Proof.
  intros HI E. apply Inv_Schedule_spec; [done|].
  apply schedule_sound; [apply HI | done].
Qed.

Lemma schedule_total s : Inv s → is_Some (schedule s).
Proof.
  intros HI. unfold schedule.
  assert (∀ s1, demoted s s1 → is_Some (select_next s1)) as Hsel.
  { intros s1 Hd. destruct (demoted_none_running _ _ HI Hd) as [HS1 _].
    rewrite select_next_eq by (apply Forall_queue_valid, HS1).
    destruct (sorted_reverse _ _); eauto. }
  destruct (running_process s) as [r|] eqn:Er.
  - destruct (inv_running _ HI _ Er) as (p & Hp & Hst). rewrite Hp. simpl.
    case_bool_decide as Hc; [eauto|].
    apply Hsel. eapply demoted_running; [done..|].
    by rewrite <- (st_quantum _ (inv_struct _ HI)).
  - apply Hsel. by apply demoted_none.
Qed.

Lemma Inv_set_cpu r c s : Inv s → Inv (set_cpu r c s).
Proof.
  intros [HS Hr Hs]. split.
  - by apply Struct_set_field.
  - simpl. intros r' Er. destruct (Hr _ Er) as (p & Hp & Hst).
    rewrite lookup_set_field. case_decide; rewrite Hp; simpl; eauto.
  - simpl. intros r' p. rewrite lookup_set_field. case_decide as E; [|by apply Hs].
    destruct (heap s !! r') as [p'|] eqn:Ep; simpl; [|done].
    intros [= <-]. simpl. by apply Hs.
Qed.

(** What [terminate_process] does on a scheduler that satisfies the
    invariant: a known pid is marked Terminated, and the running slot is
    cleared exactly when it holds that process. *)
Lemma terminate_process_eq s k :
  Inv s →
  terminate_process s k =
    match processes s !! k with
    | Some r =>
        Some (if bool_decide (running_process s = Some r)
              then with_running None (set_state r TERMINATED s)
              else set_state r TERMINATED s)
    | None => Some s
    end.
Proof.
  intros [HS Hr Hs]. unfold terminate_process.
  destruct (processes s !! k) as [r|] eqn:Ek; [|done]. simpl.
  destruct (running_process s) as [r'|] eqn:Er.
  - destruct (Hr _ eq_refl) as (p' & Hp' & Hst).
    rewrite lookup_set_field, Hp'.
    destruct (st_table _ HS _ _ Ek) as (p & Hp & Hpid).
    case_decide as E; simpl.
    + subst r'. assert (p' = p) as -> by congruence.
      by rewrite !bool_decide_eq_true_2.
    + rewrite bool_decide_eq_false_2.
      * rewrite bool_decide_eq_false_2; [done | congruence].
      * intros Hk. apply (st_heap _ HS) in Hp'. congruence.
  - by rewrite bool_decide_eq_false_2.
Qed.

Lemma Inv_terminate_process s k s' :
  Inv s → terminate_process s k = Some s' → Inv s'.
Proof.
  intros HI. rewrite terminate_process_eq by done.
  destruct HI as [HS Hr Hs].
  destruct (processes s !! k) as [r|] eqn:Ek; [|by intros [= <-]].
  intros [= <-].
  assert (∀ r' p, alter (Process_with_state TERMINATED) r (heap s) !! r' = Some p →
            state p = RUNNING → r' ≠ r ∧ heap s !! r' = Some p) as Hold.
  { intros r' p. rewrite lookup_set_field. case_decide as E; [|by intros; split; [congruence|]].
    destruct (heap s !! r'); simpl; [|done]. by intros [= <-]. }
  case_bool_decide as Er.
  - split.
    + apply Struct_with_running. by apply Struct_set_field.
    + done.
    + simpl. intros r' p Hp Hst. destruct (Hold _ _ Hp Hst) as [Hne Hp'].
      specialize (Hs _ _ Hp' Hst). congruence.
  - split.
    + by apply Struct_set_field.
    + simpl. intros r' Er'. destruct (Hr _ Er') as (p & Hp & Hst).
      exists p. split; [|done]. rewrite list_lookup_alter_ne; [done | congruence].
    + simpl. intros r' p Hp Hst. destruct (Hold _ _ Hp Hst) as [Hne Hp'].
      by eapply Hs.
Qed.

Lemma terminate_process_total s k : Inv s → is_Some (terminate_process s k).
Proof.
  intros HI. rewrite terminate_process_eq by done.
  destruct (processes s !! k); eauto.
Qed.

(** What [execute_cycle] does after [schedule] has answered. *)
Lemma execute_cycle_eq s s1 res :
  schedule s = Some (s1, res) →
  execute_cycle s =
    match res with
    | Some r =>
        p ← heap s1 !! r;
        let s2 := set_cpu r (cpu_time_used p + 1) s1 in
        if bool_decide (cpu_time_used p + 1 >= 5) then terminate_process s2 (pid p)
        else Some s2
    | None => Some s1
    end.
Proof. intros E. unfold execute_cycle. by rewrite E. Qed.

Lemma Inv_execute_cycle s s' :
  Inv s → execute_cycle s = Some s' → Inv s'.
Proof.
  intros HI. destruct (schedule_total _ HI) as [[s1 res] E].
  rewrite (execute_cycle_eq _ _ _ E).
  destruct (Inv_schedule _ _ _ HI E) as (HI1 & _ & _).
  destruct res as [r|]; [|by intros [= <-]].
  destruct (heap s1 !! r) as [p|]; [|done]. simpl.
  case_bool_decide.
  - apply Inv_terminate_process. by apply Inv_set_cpu.
  - intros [= <-]. by apply Inv_set_cpu.
Qed.

Lemma execute_cycle_total s : Inv s → is_Some (execute_cycle s).
Proof.
  intros HI. destruct (schedule_total _ HI) as [[s1 res] E].
  rewrite (execute_cycle_eq _ _ _ E).
  destruct (Inv_schedule _ _ _ HI E) as (HI1 & Hrun & _).
  destruct res as [r|]; [|eauto].
  destruct (inv_running _ HI1 r (Hrun _ eq_refl)) as (p & Hp & _).
  rewrite Hp. simpl. case_bool_decide; [|eauto].
  apply terminate_process_total. by apply Inv_set_cpu.
Qed.

Lemma Inv_sched_call s c s' : Inv s → sched_call s c = Some s' → Inv s'.
Proof.
  intros HI. destruct c as [n pr mem now| | |k]; simpl.
  - intros [= <-]. by apply Inv_create_process.
  - destruct (schedule s) as [[s1 res]|] eqn:E; [|done]. simpl.
    intros [= <-]. by destruct (Inv_schedule _ _ _ HI E).
  - by apply Inv_execute_cycle.
  - by apply Inv_terminate_process.
Qed.

Lemma reachable_Inv s : reachable s → Inv s.
Proof.
  induction 1 as [|s c s' _ IH E]; [apply Inv_init | by eapply Inv_sched_call].
Qed.

(** No method of a reachable scheduler reads a reference that the object
    store does not hold: every call has a result. *)
Lemma sched_total s c : reachable s → is_Some (sched_call s c).
Proof.
  intros HI%reachable_Inv. destruct c as [n pr mem now| | |k]; simpl.
  - eauto.
  - destruct (schedule_total _ HI) as [x ->]. simpl. eauto.
  - by apply execute_cycle_total.
  - by apply terminate_process_total.
Qed.

Lemma reachable_run s cs s' :
  reachable s → sched_run s cs = Some s' → reachable s'.
Proof.
  unfold sched_run. revert s. induction cs as [|c cs IH]; simpl; intros s Hs.
  - by intros [= <-].
  - destruct (sched_call s c) as [s1|] eqn:E; simpl.
    + apply IH. by eapply reach_call.
    + intros Hn. exfalso. clear -Hn. induction cs; simpl in *; [done | auto].
Qed.

(* ===================================================================== *)
(** ** ProcessScheduler: results                                         *)
(* ===================================================================== *)

Lemma reachable_two_ready : reachable two_ready.
Proof.
  eapply reach_call; [eapply reach_call; [apply reach_init|]|];
    [exact (eq_refl : sched_call _ (CreateProcess "A" 2 1024 0) = _)
    |exact (eq_refl : sched_call _ (CreateProcess "B" 1 1024 0) = _)].
Defined.

Lemma reachable_four_ticks : reachable four_ticks.
Proof.
  apply (reachable_run two_ready (replicate 4 ExecuteCycle));
    [apply reachable_two_ready | by vm_compute].
Defined.

(** The process popped in step (3) has the highest priority of the queue,
    and every process ahead of it in the queue has a strictly lower one. *)
Lemma stable_sort_desc_head {A} (key : A → Z) l next rest :
  stable_sort_desc key l (next :: rest) →
  (∀ x, x ∈ l → key x <= key next)
  ∧ ∃ l1 l2, l = l1 ++ next :: l2 ∧ ∀ x, x ∈ l1 → key x < key next.
Proof.
  intros Hs. pose proof Hs as [Hsorted Hf].
  assert (∀ x, x ∈ l → key x <= key next) as Hmax.
  { intros x Hx. apply (stable_sort_desc_elem _ _ _ x Hs) in Hx.
    apply StronglySorted_inv in Hsorted as [_ Hall].
    rewrite Forall_forall in Hall.
    apply elem_of_cons in Hx as [->|Hx]; [lia|].
    specialize (Hall _ Hx). simpl in Hall. lia. }
  split; [done|].
  specialize (Hf (key next)). rewrite filter_cons_True in Hf by done.
  clear Hs Hsorted. revert Hf Hmax. generalize (filter (λ a, key a = key next) rest).
  intros t. induction l as [|y l IH]; intros Hf Hmax; [by rewrite filter_nil in Hf|].
  rewrite filter_cons in Hf. case_decide as Hy.
  - injection Hf as -> _. exists [], l. split; [done|]. by intros x Hx%elem_of_nil.
  - destruct IH as (l1 & l2 & -> & Hl1); [done | by intros x Hx; apply Hmax; right |].
    exists (y :: l1), l2. split; [done|].
    intros x [->|Hx]%elem_of_cons; [|by apply Hl1].
    specialize (Hmax y (list_elem_of_here _ _)). lia.
Qed.

Lemma stable_sort_desc_ext {A} (key key' : A → Z) l l' :
  (∀ a, key a = key' a) →
  stable_sort_desc key l l' → stable_sort_desc key' l l'.
Proof.
  intros E Hs.
  rewrite <- (stable_sort_desc_unique key l _ _ (sorted_reverse_stable key l) Hs).
  rewrite (sorted_reverse_ext key key') by done.
  apply sorted_reverse_stable.
Qed.

Lemma Process_eta (p : Process) :
  p = {| pid := pid p; name := name p; state := state p; priority := priority p;
         memory_required := memory_required p; created_at := created_at p;
         cpu_time_used := cpu_time_used p |}.
Proof. by destruct p. Qed.

(** The store after a demotion of [r0] and the selection of [next]. *)
Lemma heap_after_select (h : list Process) (r0 next r : nat) (p : Process) :
  h !! r = Some p →
  alter (Process_with_state RUNNING) next (alter (Process_with_state READY) r0 h) !! r
  = Some {| pid := pid p; name := name p;
            state := if decide (r = next) then RUNNING
                     else if decide (r ∈ [r0]) then READY else state p;
            priority := priority p; memory_required := memory_required p;
            created_at := created_at p; cpu_time_used := cpu_time_used p |}.
Proof.
  intros Hp. rewrite !lookup_set_field, Hp.
  destruct (decide (next = r)) as [->|Hne].
  - rewrite (decide_True (P := r = r)) by done.
    by destruct (decide (r0 = r)).
  - rewrite (decide_False (P := r = next)) by done.
    destruct (decide (r0 = r)) as [->|Hne0]; simpl.
    + by rewrite decide_True by (by apply list_elem_of_singleton).
    + rewrite decide_False; [|rewrite list_elem_of_singleton; congruence].
      f_equal. apply Process_eta.
Qed.

(** The worded algorithm, as [Schedule_spec] has it, gives the effects on
    the fields. *)
Lemma Schedule_spec_effects s s' res :
  Schedule_spec s s' res → schedule_effects s s' res.
Proof.
  intros [r p Hr Hp Hc|s1 next rest Hd Hsort|s1 Hd He].
  - by eapply effects_continue.
  - destruct Hd as [Hn|r0 p0 Er Ep Hc].
    + eapply (effects_select _ _ [] next rest); simpl; try done.
      * by left.
      * by rewrite app_nil_r.
      * by rewrite length_alter.
      * intros r p Hp. rewrite lookup_set_field, Hp.
        try rewrite (decide_False (P := r ∈ [])) by apply not_elem_of_nil.
        destruct (decide (next = r)) as [->|Hne]; simpl.
        -- by rewrite decide_True.
        -- rewrite decide_False by done. f_equal. apply Process_eta.
    + eapply (effects_select _ _ [r0] next rest); simpl; try done.
      * right. eauto 10.
      * eapply stable_sort_desc_ext; [|exact Hsort].
        intros a. simpl. by apply prio_at_set_field.
      * by rewrite !length_alter.
      * intros r p Hp. by apply heap_after_select.
  - destruct Hd as [Hn|r0 p0 Er Ep Hc]; [by apply effects_idle|].
    simpl in He. by destruct (ready_queue s).
Qed.

(** The effects on the fields fix the scheduler after the call, and it is
    the one the worded algorithm gives. *)
Lemma schedule_effects_Schedule_spec s s' res :
  schedule_effects s s' res → Schedule_spec s s' res.
Proof.
  intros [r p Hr Hp Hc ->|back next rest Hback Hsort Hq Hrun Hlen Hheap Ht Hn Hqu|Hr Hq ->].
  - by eapply spec_continue.
  - assert (∃ s1, demoted s s1
              ∧ ready_queue s1 = ready_queue s ++ back
              ∧ (∀ a, prio_at (heap s1) a = prio_at (heap s) a)
              ∧ s' = with_running (Some next)
                       (set_state next RUNNING (with_ready_queue rest s1)))
      as (s1 & Hd & Hq1 & Hprio & ->).
    { assert (∀ h' : list Process, length h' = length (heap s') →
                (∀ r p, heap s !! r = Some p → h' !! r = heap s' !! r) →
                h' = heap s') as Hext.
      { intros h' Hl Hsame. apply list_eq. intros r.
        destruct (heap s !! r) as [p|] eqn:Ep; [by eapply Hsame|].
        apply lookup_ge_None in Ep.
        rewrite !lookup_ge_None_2; [done|lia..]. }
      destruct Hback as [[Hnone ->]|(r0 & p0 & Er & Ep & Hc & ->)].
      - exists s. split_and!; [by apply demoted_none | by rewrite app_nil_r | done |].
        destruct s' as [h' q' run' t' n' qu']. simpl in *. subst.
        unfold with_running, set_state, with_heap, with_ready_queue. simpl.
        f_equal. symmetry. apply Hext; [by rewrite length_alter|].
        intros r p Hp. rewrite (Hheap _ _ Hp), lookup_set_field, Hp.
        try rewrite (decide_False (P := r ∈ [])) by apply not_elem_of_nil.
        destruct (decide (next = r)) as [->|Hne]; simpl.
        + by rewrite decide_True.
        + rewrite decide_False by done. f_equal. apply Process_eta.
      - exists (with_ready_queue (ready_queue s ++ [r0]) (set_state r0 READY s)).
        split_and!; [by eapply demoted_running | done
                    | intros a; simpl; by apply prio_at_set_field |].
        destruct s' as [h' q' run' t' n' qu']. simpl in *. subst.
        unfold with_running, set_state, with_heap, with_ready_queue. simpl.
        f_equal. symmetry. apply Hext; [by rewrite !length_alter|].
        intros r p Hp. rewrite (Hheap _ _ Hp). by apply heap_after_select. }
    apply spec_select; [done|]. rewrite Hq1.
    eapply stable_sort_desc_ext; [|exact Hsort]. done.
  - apply spec_idle; [by apply demoted_none | done].
Qed.



(** At [quantum_used] A runs with its quantum used up and B, of the same
    priority, waits: [schedule] sets A to Ready behind B, the stable sort
    leaves B in front, B is popped, set to Running and installed in the
    running slot, and the ready queue holds A. *)
Example schedule_after_quantum :
  running_process quantum_used = Some 0%nat
  ∧ ready_queue quantum_used = [1%nat]
  ∧ (state <$> heap quantum_used !! 0%nat) = Some RUNNING
  ∧ (cpu_time_used <$> heap quantum_used !! 0%nat) = Some 3
  ∧ ∃ s', schedule quantum_used = Some (s', Some 1%nat)
          ∧ running_process s' = Some 1%nat
          ∧ ready_queue s' = [0%nat]
          ∧ (state <$> heap s' !! 0%nat) = Some READY
          ∧ (state <$> heap s' !! 1%nat) = Some RUNNING.
Proof. split_and!; [done..|]. eexists. by vm_compute. Qed.

(** A(priority 2), B(priority 1), both Ready: [schedule] returns A; with
    two processes of priority 1 it returns the one that arrived first. *)
Example schedule_two_ready :
  (∃ s', schedule two_ready = Some (s', Some 0%nat)
         ∧ ready_queue s' = [1%nat]
         ∧ (state <$> heap s' !! 0%nat) = Some RUNNING)
  ∧ sorted_reverse fst [(1, "a"); (3, "b"); (1, "c"); (3, "d"); (2, "e")]
    = [(3, "b"); (3, "d"); (2, "e"); (1, "a"); (1, "c")].
Proof. split; [eexists; by vm_compute | reflexivity]. Qed.

Lemma Inv_single_running s : Inv s → single_running s.
Proof.
  intros [HS Hr Hs].
  assert (∀ k, state_of s k = Some RUNNING →
            ∃ r p, processes s !! k = Some r ∧ heap s !! r = Some p
                   ∧ pid p = k ∧ running_process s = Some r) as Hk.
  { intros k. unfold state_of.
    destruct (processes s !! k) as [r|] eqn:Ek; simpl; [|done].
    destruct (st_table _ HS _ _ Ek) as (p & Hp & Hpid). rewrite Hp. simpl.
    intros [= Hst]. exists r, p. split_and!; try done. by eapply Hs. }
  split.
  - intros k1 k2 (r1 & p1 & _ & Hp1 & <- & Hr1)%Hk (r2 & p2 & _ & Hp2 & <- & Hr2)%Hk.
    congruence.
  - intros k (r & p & ? & _ & _ & ?)%Hk. eauto.
Qed.

(** C4: after [schedule] on a reachable scheduler, at most one process
    of the process table is Running, and a Running process is the one in
    the running slot. *)
Theorem schedule_single_running (s : ProcessScheduler) :
  reachable s →
  ∃ s' res, schedule s = Some (s', res) ∧ single_running s'.
Proof.
  intros HI%reachable_Inv.
  destruct (schedule_total _ HI) as [[s' res] E].
  exists s', res. split; [done|].
  apply Inv_single_running. by destruct (Inv_schedule _ _ _ HI E).
Qed.

Lemma schedule_single_running_witness :
  reachable two_ready
  ∧ ∃ s' res, schedule two_ready = Some (s', res) ∧ single_running s'.
Proof.
  split; [apply reachable_two_ready|].
  apply (schedule_single_running two_ready reachable_two_ready).
Defined.

(** [schedule] and [terminate_process] assign [state] only. *)
Lemma Schedule_spec_cpu s s' res :
  Schedule_spec s s' res →
  ∀ r, cpu_time_used <$> heap s' !! r = cpu_time_used <$> heap s !! r.
Proof.
  assert (∀ st r0 (h : list Process) r,
            cpu_time_used <$> alter (Process_with_state st) r0 h !! r
            = cpu_time_used <$> h !! r) as Halt.
  { intros st r0 h r. rewrite lookup_set_field. case_decide; [|done].
    by destruct (h !! r). }
  assert (∀ s1, demoted s s1 →
            ∀ r, cpu_time_used <$> heap s1 !! r = cpu_time_used <$> heap s !! r) as Hd.
  { intros s1 [Hn|r0 p0 Er Ep Hc] r; [done|]. simpl. apply Halt. }
  intros [r0 p Hr Hp Hc|s1 next rest Hdem Hsort|s1 Hdem He] r; [done| |by apply Hd].
  simpl. rewrite Halt. by apply Hd.
Qed.

(** C6: a tick of a reachable scheduler calls [schedule].  If no process
    comes back the scheduler is as [schedule] left it.  If process [r]
    comes back, its [cpu_time_used] after the tick is one more than
    before and no other process's counter moves; if the new count has
    reached 5 the process is Terminated and the running slot is empty
    when the tick ends, otherwise it is Running and holds the slot. *)
Theorem execute_cycle_tick (s : ProcessScheduler) :
  reachable s →
  ∃ s1 res s',
    schedule s = Some (s1, res) ∧ execute_cycle s = Some s'
    ∧ match res with
      | None => s' = s1
      | Some r =>
          ∃ p0 p',
            heap s !! r = Some p0 ∧ heap s' !! r = Some p'
            ∧ cpu_time_used p' = cpu_time_used p0 + 1
            ∧ (∀ r', r' ≠ r →
                 cpu_time_used <$> heap s' !! r' = cpu_time_used <$> heap s !! r')
            ∧ (cpu_time_used p' >= 5 →
                 state p' = TERMINATED ∧ running_process s' = None)
            ∧ (cpu_time_used p' < 5 →
                 state p' = RUNNING ∧ running_process s' = Some r)
      end.
Proof.
  intros HI%reachable_Inv.
  destruct (schedule_total _ HI) as [[s1 res] E].
  destruct (Inv_schedule _ _ _ HI E) as (HI1 & Hrun & _).
  pose proof (Schedule_spec_cpu _ _ _ (schedule_sound _ _ _ (st_quantum _ (inv_struct _ HI)) E)) as Hcpu.
  exists s1, res. rewrite (execute_cycle_eq _ _ _ E).
  destruct res as [r|]; [|by exists s1].
  specialize (Hrun _ eq_refl).
  destruct (inv_running _ HI1 r Hrun) as (p & Hp & Hst).
  rewrite Hp. simpl.
  assert (∃ p0, heap s !! r = Some p0 ∧ cpu_time_used p0 = cpu_time_used p)
    as (p0 & Hp0 & Hc).
  { specialize (Hcpu r). rewrite Hp in Hcpu.
    destruct (heap s !! r) as [p0|]; [|done]. injection Hcpu as Hc. eauto. }
  pose proof (Inv_set_cpu r (cpu_time_used p + 1) _ HI1) as HI2.
  remember (set_cpu r (cpu_time_used p + 1) s1) as s2 eqn:Es2.
  remember (Process_with_cpu (cpu_time_used p + 1) p) as p2 eqn:Ep2.
  assert (heap s2 !! r = Some p2) as Hp2.
  { subst s2 p2. simpl. by rewrite list_lookup_alter_eq, Hp. }
  assert (∀ r', r' ≠ r →
            cpu_time_used <$> heap s2 !! r' = cpu_time_used <$> heap s !! r') as Hoth.
  { intros r' Hne. subst s2. simpl.
    rewrite list_lookup_alter_ne by done. apply Hcpu. }
  assert (running_process s2 = Some r) as Hrun2 by (by subst s2).
  assert (cpu_time_used p2 = cpu_time_used p + 1 ∧ state p2 = RUNNING ∧ pid p2 = pid p)
    as (Hc2 & Hst2 & Hpid2) by (by subst p2).
  clear Es2 Ep2.
  case_bool_decide as H5.
  - rewrite <- Hpid2.
    rewrite terminate_process_eq by done.
    rewrite (st_heap _ (inv_struct _ HI2) _ _ Hp2).
    rewrite bool_decide_eq_true_2 by done.
    eexists. split; [done|]. split; [done|].
    exists p0, (Process_with_state TERMINATED p2). simpl.
    split_and!; try done.
    + by rewrite list_lookup_alter_eq, Hp2.
    + lia.
    + intros r' Hne. rewrite list_lookup_alter_ne by done. by apply Hoth.
    + lia.
  - eexists. split; [done|]. split; [done|].
    exists p0, p2. split_and!; try done; lia.
Qed.

Lemma execute_cycle_tick_witness :
  reachable four_ticks
  ∧ ∃ s1 res s',
    schedule four_ticks = Some (s1, res) ∧ execute_cycle four_ticks = Some s'
    ∧ match res with
      | None => s' = s1
      | Some r =>
          ∃ p0 p',
            heap four_ticks !! r = Some p0 ∧ heap s' !! r = Some p'
            ∧ cpu_time_used p' = cpu_time_used p0 + 1
            ∧ (∀ r', r' ≠ r →
                 cpu_time_used <$> heap s' !! r' = cpu_time_used <$> heap four_ticks !! r')
            ∧ (cpu_time_used p' >= 5 →
                 state p' = TERMINATED ∧ running_process s' = None)
            ∧ (cpu_time_used p' < 5 →
                 state p' = RUNNING ∧ running_process s' = Some r)
      end.
Proof.
  split; [apply reachable_four_ticks|].
  apply (execute_cycle_tick four_ticks reachable_four_ticks).
Defined.

(** The tick that takes A from 4 to 5: A ends Terminated, the slot empty. *)
Example fifth_tick :
  (cpu_time_used <$> heap four_ticks !! 0%nat) = Some 4
  ∧ running_process four_ticks = Some 0%nat
  ∧ ∃ s', execute_cycle four_ticks = Some s'
          ∧ (cpu_time_used <$> heap s' !! 0%nat) = Some 5
          ∧ (state <$> heap s' !! 0%nat) = Some TERMINATED
          ∧ running_process s' = None
          ∧ ready_queue s' = [1%nat].
Proof. split_and!; [done..|]. eexists. by vm_compute. Qed.

Lemma seqZ_strictly_increasing m (n : nat) : StronglySorted Z.lt (seqZ m (Z.of_nat n)).
Proof.
  revert m. induction n as [|n IH]; intros m; [constructor|].
  rewrite seqZ_cons by lia. constructor.
  - replace (Z.pred (Z.of_nat (S n))) with (Z.of_nat n) by lia. apply IH.
  - apply Forall_forall. intros k Hk%elem_of_seqZ. lia.
Qed.

(** C8: [create_process] is a total function, so it cannot fail.  Each
    call returns [next_pid], leaves the new process, in state Ready, in
    the process table under that pid, and appends it to the back of the
    ready queue.  The pids of any run of calls are [next_pid],
    [next_pid + 1], ...: strictly increasing and without repetition. *)
Theorem create_process_pids :
  (∀ s n pr mem now,
     let s' := (create_process s n pr mem now).1 in
     let k := (create_process s n pr mem now).2 in
     let r := length (heap s) in
     k = next_pid s
     ∧ next_pid s' = next_pid s + 1
     ∧ processes s' !! k = Some r
     ∧ heap s' !! r =
         Some {| pid := k; name := n; state := READY; priority := pr;
                 memory_required := mem; created_at := now; cpu_time_used := 0 |}
     ∧ ready_queue s' = ready_queue s ++ [r])
  ∧ (∀ s args,
       let ks := (create_all s args).2 in
       ks = seqZ (next_pid s) (Z.of_nat (length args))
       ∧ StronglySorted Z.lt ks
       ∧ NoDup ks).
Proof.
  split.
  - intros s n pr mem now. rewrite create_process_eq. simpl.
    split_and!; try done.
    + by rewrite lookup_insert_eq.
    + by rewrite list_lookup_middle.
  - intros s args.
    assert ((create_all s args).2 = seqZ (next_pid s) (Z.of_nat (length args))) as ->.
    { revert s. induction args as [|[[[n pr] mem] now] args IH]; intros s; [done|].
      cbn [create_all]. rewrite create_process_eq.
      destruct (create_all _ args) as [s2 ks] eqn:E. cbn [snd].
      apply (f_equal snd) in E. rewrite IH in E. cbn [snd next_pid] in E. subst ks.
      rewrite (seqZ_cons (next_pid s)) by (cbn [length]; lia).
      do 2 f_equal; cbn [length]; lia. }
    split_and!; [done | apply seqZ_strictly_increasing | apply NoDup_seqZ].
Qed.

(** The simulation's four processes get pids 1, 2, 3, 4. *)
Example simulation_pids :
  (create_all ProcessScheduler_init
     [("navegador", 2, 1024, 0); ("editor", 1, 1024, 0);
      ("calculadora", 1, 1024, 0); ("reproductor", 3, 1024, 0)]).2 = [1; 2; 3; 4].
Proof. reflexivity. Qed.

(** C9: [terminate_process] is a method of the scheduler and has no
    access to the memory manager: on an OS with a reachable scheduler the
    call returns, the memory manager, so the page map and
    [available_memory], is what it was, and a process of the table that
    held pages is Terminated and still holds the same pages. *)
Theorem terminate_process_keeps_memory (os : NexusOS) (k : Z) :
  reachable (scheduler os) →
  ∃ os',
    os_terminate_process os k = Some os'
    ∧ memory_manager os' = memory_manager os
    ∧ memory_map (memory_manager os') = memory_map (memory_manager os)
    ∧ available_memory (memory_manager os') = available_memory (memory_manager os)
    ∧ (is_Some (processes (scheduler os) !! k) →
         state_of (scheduler os') k = Some TERMINATED
         ∧ pages_to_free (memory_map (memory_manager os')) k
           = pages_to_free (memory_map (memory_manager os)) k).
Proof.
  intros HI%reachable_Inv. unfold os_terminate_process.
  rewrite terminate_process_eq by done.
  destruct (processes (scheduler os) !! k) as [r|] eqn:Ek; simpl.
  - eexists. split; [done|]. simpl. split_and!; try done.
    intros _. split; [|done].
    destruct (st_table _ (inv_struct _ HI) _ _ Ek) as (p & Hp & _).
    unfold state_of. case_bool_decide; simpl; rewrite Ek; simpl;
      by rewrite list_lookup_alter_eq, Hp.
  - eexists. split; [done|]. simpl. split_and!; try done.
Qed.

Lemma terminate_process_keeps_memory_witness :
  reachable (scheduler os_with_pages)
  ∧ ∃ os',
    os_terminate_process os_with_pages 2 = Some os'
    ∧ memory_manager os' = memory_manager os_with_pages
    ∧ memory_map (memory_manager os') = memory_map (memory_manager os_with_pages)
    ∧ available_memory (memory_manager os')
      = available_memory (memory_manager os_with_pages)
    ∧ (is_Some (processes (scheduler os_with_pages) !! 2) →
         state_of (scheduler os') 2 = Some TERMINATED
         ∧ pages_to_free (memory_map (memory_manager os')) 2
           = pages_to_free (memory_map (memory_manager os_with_pages)) 2).
Proof.
  split; [apply reachable_two_ready|].
  apply (terminate_process_keeps_memory os_with_pages 2 reachable_two_ready).
Defined.

(** Process 2 is Terminated and its two pages are still in the page map. *)
Example terminated_still_holds_pages :
  ∃ os', os_terminate_process os_with_pages 2 = Some os'
         ∧ state_of (scheduler os') 2 = Some TERMINATED
         ∧ length (pages_to_free (memory_map (memory_manager os')) 2) = 2%nat
         ∧ available_memory (memory_manager os') = 1048576 - 8192.
Proof. eexists. by vm_compute. Qed.

(** C10: if [p] is in the ready queue and is not the running process,
    [terminate_process(p.pid)] marks it Terminated and leaves the ready
    queue and the running slot as they are.  When the slot is empty and
    [p] is at the head of the priority order, the next [schedule] pops
    it, sets it to Running and returns it. *)
Theorem terminated_process_scheduled_again (s : ProcessScheduler) (r : nat)
    (p : Process) :
  reachable s →
  r ∈ ready_queue s →
  running_process s ≠ Some r →
  heap s !! r = Some p →
  ∃ s',
    terminate_process s (pid p) = Some s'
    ∧ heap s' !! r = Some (Process_with_state TERMINATED p)
    ∧ ready_queue s' = ready_queue s
    ∧ running_process s' = running_process s
    ∧ (running_process s = None →
       ∀ rest,
         stable_sort_desc (prio_at (heap s)) (ready_queue s) (r :: rest) →
         ∃ s'',
           schedule s' = Some (s'', Some r)
           ∧ heap s'' !! r = Some (Process_with_state RUNNING p)
           ∧ running_process s'' = Some r
           ∧ ready_queue s'' = rest).
Proof.
  intros HI%reachable_Inv Hin Hnr Hp.
  rewrite terminate_process_eq by done.
  rewrite (st_heap _ (inv_struct _ HI) _ _ Hp).
  rewrite bool_decide_eq_false_2 by done.
  eexists. split; [done|]. simpl.
  split_and!; try done.
  { by rewrite list_lookup_alter_eq, Hp. }
  intros Hnone rest Hsort.
  unfold schedule. simpl. rewrite Hnone.
  rewrite select_next_eq; simpl.
  - rewrite (sorted_reverse_ext _ (prio_at (heap s)))
      by (by apply prio_at_set_field).
    rewrite (stable_sort_desc_cons_inv _ _ _ _ Hsort).
    eexists. split; [done|]. simpl. split_and!; try done.
    by rewrite !list_lookup_alter_eq, Hp.
  - apply Forall_forall. intros x Hx. rewrite is_Some_set_field.
    by apply (st_queue _ (inv_struct _ HI)).
Qed.

Lemma terminated_process_scheduled_again_witness :
  reachable two_ready
  ∧ 0%nat ∈ ready_queue two_ready
  ∧ running_process two_ready ≠ Some 0%nat
  ∧ heap two_ready !! 0%nat
    = Some (Process_with_state READY (Process_init 1 "A" 2 1024 0))
  ∧ ∃ s' s'',
      terminate_process two_ready 1 = Some s'
      ∧ (state <$> heap s' !! 0%nat) = Some TERMINATED
      ∧ ready_queue s' = [0%nat; 1%nat]
      ∧ schedule s' = Some (s'', Some 0%nat)
      ∧ (state <$> heap s'' !! 0%nat) = Some RUNNING
      ∧ running_process s'' = Some 0%nat.
Proof.
  assert (0%nat ∈ ready_queue two_ready) as Hin
    by (by apply (bool_decide_unpack _)).
  assert (running_process two_ready ≠ Some 0%nat) as Hnr by (by vm_compute).
  assert (heap two_ready !! 0%nat
          = Some (Process_with_state READY (Process_init 1 "A" 2 1024 0))) as Hp
    by (by vm_compute).
  split_and!; [apply reachable_two_ready | done..|].
  destruct (terminated_process_scheduled_again two_ready 0%nat _
              reachable_two_ready Hin Hnr Hp)
    as (s' & Ht & Hs' & Hq & Hrun & Hnext).
  destruct (Hnext eq_refl [1%nat]) as (s'' & Hsch & Hs'' & Hr'' & _).
  - exact (sorted_reverse_stable (prio_at (heap two_ready)) (ready_queue two_ready)).
  - exists s', s''. split_and!; try done.
    + by rewrite Hs'.
    + by rewrite Hs''.
Defined.

(* ===================================================================== *)
(** ** ProcessScheduler: queue discipline and CPU accounting             *)
(* ===================================================================== *)

Lemma Queued_init : Queued ProcessScheduler_init.
Proof.
  split; simpl; try done.
  constructor.
Qed.

Lemma Queued_create_process s n pr mem now :
  Inv s → Queued s → Queued (create_process s n pr mem now).1.
Proof.
  intros HI [Hnd Hrun Hcpu Hdone Hst Hrdy]. rewrite create_process_eq. simpl.
  assert (∀ r, r ∈ ready_queue s → (r < length (heap s))%nat) as Hlt.
  { intros r Hr. apply lookup_lt_is_Some. by apply (st_queue _ (inv_struct _ HI)). }
  assert (length (heap s) ∉ ready_queue s) as Hfresh.
  { intros Hin%Hlt. lia. }
  split; simpl.
  - apply NoDup_app. split_and!; [done| |apply NoDup_singleton].
    intros r Hr ->%list_elem_of_singleton. by apply Hfresh.
  - intros r Er. rewrite elem_of_app, list_elem_of_singleton.
    intros [Hin| ->]; [by eapply Hrun|].
    destruct (inv_running _ HI _ Er) as (p & Hp & _).
    apply lookup_lt_Some in Hp. lia.
  - intros r p. rewrite lookup_snoc_Some. intros [[_ Hp]|[_ <-]]; [by eapply Hcpu|].
    simpl. lia.
  - intros r p. rewrite lookup_snoc_Some. intros [[Hr Hp]|[_ <-]]; [|done].
    intros H5. destruct (Hdone _ _ Hp H5) as (? & ? & ?). split_and!; [done| |done].
    rewrite elem_of_app, list_elem_of_singleton. intros [?| ->]; [done | lia].
  - intros r p. rewrite lookup_snoc_Some. intros [[_ Hp]|[_ <-]]; [by eapply Hst|].
    by left.
  - intros r p. rewrite lookup_snoc_Some, elem_of_app, list_elem_of_singleton.
    intros [[_ Hp]|[-> <-]] Hs; [left; by eapply Hrdy | by right].
Qed.

Lemma stable_sort_desc_perm {A} (key : A → Z) l l' :
  stable_sort_desc key l l' → l' ≡ₚ l.
Proof.
  intros Hs.
  rewrite <- (stable_sort_desc_unique key l _ _ (sorted_reverse_stable key l) Hs).
  apply sorted_reverse_perm.
Qed.

Lemma Queued_Schedule_spec s s' res :
  Inv s → Queued s → Schedule_spec s s' res → Queued s'.
Proof.
  intros HI HQ [r p Hr Hp Hc|s1 next rest Hd Hsort|s1 Hd He]; [done| |].
  - (* the state after step (2) *)
    assert (NoDup (ready_queue s1)
            ∧ (∀ r p, heap s1 !! r = Some p → 0 <= cpu_time_used p <= 5)
            ∧ (∀ r p, heap s1 !! r = Some p → cpu_time_used p = 5 →
                 state p = TERMINATED ∧ r ∉ ready_queue s1)
            ∧ (∀ r p, heap s1 !! r = Some p →
                 state p = READY ∨ state p = RUNNING ∨ state p = TERMINATED)
            ∧ (∀ r p, heap s1 !! r = Some p → state p = READY → r ∈ ready_queue s1))
      as (Hnd & Hcpu & Hdone & Hst & Hrdy).
    { destruct HQ as [Hnd Hrun Hcpu Hdone Hst Hrdy].
      destruct Hd as [Hn|r0 p0 Er Ep Hc].
      - split_and!; try done. intros r p Hp H5.
        by destruct (Hdone _ _ Hp H5) as (? & ? & ?).
      - simpl. split_and!.
        + apply NoDup_app. split_and!; [done| |apply NoDup_singleton].
          intros r Hr ->%list_elem_of_singleton. by eapply Hrun.
        + intros r p. rewrite lookup_set_field. case_decide; [|by apply Hcpu].
          destruct (heap s !! r) as [p'|] eqn:E; simpl; [|done].
          intros [= <-]. simpl. by eapply Hcpu.
        + intros r p. rewrite lookup_set_field. case_decide as E.
          * subst r0. rewrite Ep. simpl. intros [= <-]. simpl. intros H5.
            by destruct (Hdone _ _ Ep H5) as (_ & _ & ?).
          * intros Hp H5. destruct (Hdone _ _ Hp H5) as (? & ? & ?).
            split; [done|]. rewrite elem_of_app, list_elem_of_singleton.
            intros [?| ->]; done.
        + intros r p. rewrite lookup_set_field. case_decide; [|by apply Hst].
          destruct (heap s !! r) as [p'|] eqn:E; simpl; [|done].
          intros [= <-]. by left.
        + intros r p. rewrite lookup_set_field, elem_of_app, list_elem_of_singleton.
          case_decide as E; [by right; subst|].
          intros Hp Hs. left. by eapply Hrdy. }
    pose proof (stable_sort_desc_perm _ _ _ Hsort) as Hperm.
    rewrite <- Hperm in Hnd. apply NoDup_cons in Hnd as [Hnext Hnd].
    assert (∀ r, r ∈ ready_queue s1 ↔ r = next ∨ r ∈ rest) as Hmem.
    { intros r. by rewrite <- Hperm, elem_of_cons. }
    split; simpl.
    + done.
    + by intros r [= <-].
    + intros r p. rewrite lookup_set_field. case_decide; [|by apply Hcpu].
      destruct (heap s1 !! r) as [p'|] eqn:E; simpl; [|done].
      intros [= <-]. simpl. by eapply Hcpu.
    + intros r p. rewrite lookup_set_field. case_decide as E.
      * subst r. destruct (heap s1 !! next) as [p'|] eqn:E; simpl; [|done].
        intros [= <-]. simpl. intros H5.
        destruct (Hdone _ _ E H5) as [_ Hno]. destruct Hno. apply Hmem. by left.
      * intros Hp H5. destruct (Hdone _ _ Hp H5) as [? Hno].
        split_and!; [done| |congruence].
        intros Hin. apply Hno, Hmem. by right.
    + intros r p. rewrite lookup_set_field. case_decide; [|by apply Hst].
      destruct (heap s1 !! r) as [p'|] eqn:E; simpl; [|done].
      intros [= <-]. right. by left.
    + intros r p. rewrite lookup_set_field. case_decide as E.
      * destruct (heap s1 !! r) as [p'|]; simpl; [|done]. by intros [= <-].
      * intros Hp Hs. destruct (proj1 (Hmem r) (Hrdy _ _ Hp Hs)); [congruence | done].
  - destruct Hd as [Hn|r0 p0 Er Ep Hc]; [done|].
    simpl in He. by destruct (ready_queue s).
Qed.

Lemma Queued_schedule s s' res :
  Inv s → Queued s → schedule s = Some (s', res) → Queued s'.
Proof.
  intros HI HQ E. eapply Queued_Schedule_spec; [done..|].
  apply schedule_sound; [apply HI | done].
Qed.

Lemma Queued_terminate_process s k s' :
  Inv s → Queued s → terminate_process s k = Some s' → Queued s'.
Proof.
  intros HI [Hnd Hrun Hcpu Hdone Hst Hrdy]. rewrite terminate_process_eq by done.
  destruct (processes s !! k) as [r0|] eqn:Ek; [|by intros [= <-]].
  assert (∀ r p, alter (Process_with_state TERMINATED) r0 (heap s) !! r = Some p →
            ∃ p0, heap s !! r = Some p0 ∧ cpu_time_used p = cpu_time_used p0
                  ∧ (state p = TERMINATED ∨ state p = state p0)) as Hold.
  { intros r p. rewrite lookup_set_field. case_decide; [|by eauto].
    destruct (heap s !! r) as [p'|]; simpl; [|done]. intros [= <-]. eauto. }
  assert (Queued (set_state r0 TERMINATED s)) as HQ1.
  { split; simpl; try done.
    - intros r p (p0 & Hp0 & -> & _)%Hold. by eapply Hcpu.
    - intros r p (p0 & Hp0 & -> & Hs)%Hold H5.
      destruct (Hdone _ _ Hp0 H5) as (? & ? & ?).
      split_and!; [|done..]. destruct Hs; congruence.
    - intros r p (p0 & Hp0 & _ & [->| ->])%Hold; [by right; right | by eapply Hst].
    - intros r p (p0 & Hp0 & _ & [?| E])%Hold Hs; [congruence|].
      eapply Hrdy; [done | congruence]. }
  intros [= <-]. case_bool_decide; [|done].
  destruct HQ1 as [Hnd1 Hrun1 Hcpu1 Hdone1 Hst1 Hrdy1]. split; simpl; try done.
  intros r p Hp H5. destruct (Hdone1 _ _ Hp H5) as (? & ? & ?). done.
Qed.

Lemma Queued_execute_cycle s s' :
  Inv s → Queued s → execute_cycle s = Some s' → Queued s'.
Proof.
  intros HI HQ. destruct (schedule_total _ HI) as [[s1 res] E].
  rewrite (execute_cycle_eq _ _ _ E).
  destruct (Inv_schedule _ _ _ HI E) as (HI1 & Hrun & _).
  pose proof (Queued_schedule _ _ _ HI HQ E) as [Hnd Hrn Hcpu Hdone Hst Hrdy].
  destruct res as [r|]; [|by intros [= <-]].
  specialize (Hrun _ eq_refl).
  destruct (inv_running _ HI1 r Hrun) as (p & Hp & Hsr). rewrite Hp. simpl.
  assert (0 <= cpu_time_used p < 5) as Hlt.
  { pose proof (Hcpu _ _ Hp). destruct (decide (cpu_time_used p = 5)) as [H5|]; [|lia].
    by destruct (Hdone _ _ Hp H5) as (_ & _ & ?). }
  assert (∀ r' p', alter (Process_with_cpu (cpu_time_used p + 1)) r (heap s1) !! r' = Some p' →
            (r' = r ∧ p' = Process_with_cpu (cpu_time_used p + 1) p)
            ∨ (r' ≠ r ∧ heap s1 !! r' = Some p')) as Hold.
  { intros r' p'. rewrite lookup_set_field. case_decide as E'; [|by right].
    subst r'. rewrite Hp. simpl. intros [= <-]. by left. }
  case_bool_decide as H5.
  - pose proof (Inv_set_cpu r (cpu_time_used p + 1) _ HI1) as HI2.
    rewrite terminate_process_eq by done.
    assert (heap (set_cpu r (cpu_time_used p + 1) s1) !! r
            = Some (Process_with_cpu (cpu_time_used p + 1) p)) as Hp2.
    { simpl. by rewrite list_lookup_alter_eq, Hp. }
    rewrite (st_heap _ (inv_struct _ HI2) _ _ Hp2 : processes _ !! pid p = Some r).
    rewrite bool_decide_eq_true_2 by done. intros [= <-].
    assert (∀ r' p', heap (with_running None (set_state r TERMINATED
                       (set_cpu r (cpu_time_used p + 1) s1))) !! r' = Some p' →
              (r' = r ∧ state p' = TERMINATED ∧ cpu_time_used p' = cpu_time_used p + 1)
              ∨ (r' ≠ r ∧ heap s1 !! r' = Some p')) as Hold'.
    { intros r' p'. simpl. rewrite lookup_set_field. case_decide as E'.
      - subst r'. rewrite list_lookup_alter_eq, Hp. simpl. intros [= <-]. by left.
      - intros [[? _]|[_ ?]]%Hold; [done | by right]. }
    split.
    + done.
    + done.
    + intros r' p' [(_ & _ & ->)|[_ Hp']]%Hold'; [lia | by eapply Hcpu].
    + intros r' p' [(-> & ? & _)|[Hne Hp']]%Hold' H'.
      * split_and!; [done | by apply Hrn | done].
      * destruct (Hdone _ _ Hp' H') as (? & ? & ?). done.
    + intros r' p' [(_ & -> & _)|[_ Hp']]%Hold'; [by right; right | by eapply Hst].
    + intros r' p' [(_ & ? & _)|[_ Hp']]%Hold' Hs; [congruence | by eapply Hrdy].
  - intros [= <-]. split; simpl; try done.
    + intros r' p' [[_ ->]|[_ Hp']]%Hold; [simpl; lia | by eapply Hcpu].
    + intros r' p' [[_ ->]|[_ Hp']]%Hold; [simpl; lia | by eapply Hdone].
    + intros r' p' [[_ ->]|[_ Hp']]%Hold; [by right; left | by eapply Hst].
    + intros r' p' [[_ ->]|[_ Hp']]%Hold; [simpl; congruence | by eapply Hrdy].
Qed.

Lemma reachable_Queued s : reachable s → Queued s.
Proof.
  induction 1 as [|s c s' Hs IH E]; [apply Queued_init|].
  pose proof (reachable_Inv _ Hs) as HI.
  destruct c as [n pr mem now| | |k]; simpl in E.
  - injection E as <-. by apply Queued_create_process.
  - destruct (schedule s) as [[s1 res]|] eqn:E'; [|done]. injection E as <-.
    by eapply Queued_schedule.
  - by eapply Queued_execute_cycle.
  - by eapply Queued_terminate_process.
Qed.

(** A scheduler only ever gains objects: what a call leaves behind. *)
Lemma same_process_refl p : same_process p p.
Proof. unfold same_process. split_and!; try done. Qed.

Lemma same_process_trans p1 p2 p3 :
  same_process p1 p2 → same_process p2 p3 → same_process p1 p3.
Proof. unfold same_process. intros (?&?&?&?&?&?) (?&?&?&?&?&?). split_and!; try congruence. lia. Qed.

Lemma later_stage_refl s : later_stage s s.
Proof. split_and!; [|done|done]. intros r p Hp. exists p. split; [done | apply same_process_refl]. Qed.

Lemma later_stage_trans s1 s2 s3 :
  later_stage s1 s2 → later_stage s2 s3 → later_stage s1 s3.
Proof.
  intros (H1 & T1 & N1) (H2 & T2 & N2). split_and!; [|by auto|lia].
  intros r p Hp. destruct (H1 _ _ Hp) as (p2 & Hp2 & S12).
  destruct (H2 _ _ Hp2) as (p3 & Hp3 & S23). exists p3. split; [done|].
  by eapply same_process_trans.
Qed.

Lemma later_stage_set_field (f : Process → Process) r s :
  (∀ p, same_process p (f p)) →
  later_stage s (with_heap (alter f r (heap s)) s).
Proof.
  intros Hf. split_and!; [|done|done]. simpl. intros r' p Hp.
  rewrite lookup_set_field. case_decide; rewrite Hp; simpl; eauto using same_process_refl.
Qed.

Lemma later_stage_fields s s' :
  heap s' = heap s → processes s' = processes s → next_pid s' = next_pid s →
  later_stage s s'.
Proof.
  intros Hh Ht Hn. split_and!; [|by rewrite Ht|lia].
  intros r p Hp. rewrite Hh. eauto using same_process_refl.
Qed.

Lemma later_stage_set_state r st s : later_stage s (set_state r st s).
Proof.
  apply later_stage_set_field. intros p. unfold same_process. simpl.
  split_and!; done.
Qed.

Lemma later_stage_Schedule_spec s s' res :
  Schedule_spec s s' res → later_stage s s'.
Proof.
  assert (∀ s1, demoted s s1 → later_stage s s1) as Hd.
  { intros s1 [Hn|r0 p0 Er Ep Hc]; [apply later_stage_refl|].
    eapply later_stage_trans; [apply (later_stage_set_state r0 READY)|].
    by apply later_stage_fields. }
  intros [r p Hr Hp Hc|s1 next rest Hdem Hsort|s1 Hdem He];
    [apply later_stage_refl| |by apply Hd].
  eapply later_stage_trans; [by apply Hd|].
  eapply later_stage_trans; [apply (later_stage_fields _ (with_ready_queue rest s1)); done|].
  eapply later_stage_trans; [apply (later_stage_set_state next RUNNING)|].
  by apply later_stage_fields.
Qed.

Lemma later_stage_terminate_process s k s' :
  Inv s → terminate_process s k = Some s' → later_stage s s'.
Proof.
  intros HI. rewrite terminate_process_eq by done.
  destruct (processes s !! k) as [r|]; intros [= <-]; [|apply later_stage_refl].
  case_bool_decide; [|apply later_stage_set_state].
  eapply later_stage_trans; [apply (later_stage_set_state r TERMINATED)|].
  by apply later_stage_fields.
Qed.

Lemma later_stage_sched_call s c s' :
  reachable s → sched_call s c = Some s' → later_stage s s'.
Proof.
  intros HI%reachable_Inv. destruct c as [n pr mem now| | |k]; cbn [sched_call].
  - rewrite create_process_eq. intros [= <-]. split_and!; simpl; [| |lia].
    + intros r p Hp. exists p. split; [by apply lookup_app_l_Some | apply same_process_refl].
    + intros k r Hk. rewrite lookup_insert_ne; [done|].
      intros <-. pose proof (st_next _ (inv_struct _ HI) _ (mk_is_Some _ _ Hk)). lia.
  - destruct (schedule s) as [[s1 res]|] eqn:E; [|done]. intros [= <-].
    eapply later_stage_Schedule_spec, schedule_sound; [apply HI | done].
  - destruct (schedule_total _ HI) as [[s1 res] E].
    rewrite (execute_cycle_eq _ _ _ E).
    pose proof (later_stage_Schedule_spec _ _ _
                  (schedule_sound _ _ _ (st_quantum _ (inv_struct _ HI)) E)) as L1.
    destruct (Inv_schedule _ _ _ HI E) as (HI1 & _ & _).
    destruct res as [r|]; [|by intros [= <-]].
    destruct (heap s1 !! r) as [p|] eqn:Hp; [|done]. simpl.
    assert (later_stage s1 (set_cpu r (cpu_time_used p + 1) s1)) as L2.
    { split_and!; [|done|done]. simpl. intros r' p' Hp'.
      rewrite lookup_set_field. case_decide as E'; rewrite Hp'; simpl;
        [|eauto using same_process_refl].
      subst r'. eexists. split; [done|].
      assert (p' = p) as -> by congruence.
      unfold same_process. simpl. split_and!; try done. lia. }
    case_bool_decide.
    + intros Ht. apply later_stage_terminate_process in Ht; [|by apply Inv_set_cpu].
      eapply later_stage_trans; [exact L1|].
      eapply later_stage_trans; [exact L2 | exact Ht].
    + intros [= <-]. eapply later_stage_trans; [exact L1 | exact L2].
  - by apply later_stage_terminate_process.
Qed.

Lemma sched_run_cons s c cs :
  sched_run s (c :: cs) = s1 ← sched_call s c; sched_run s1 cs.
Proof.
  unfold sched_run. simpl. destruct (sched_call s c) as [s1|]; simpl; [done|].
  induction cs as [|c' cs IH]; simpl; [done | auto].
Qed.

Lemma later_stage_sched_run s cs s' :
  reachable s → sched_run s cs = Some s' → later_stage s s'.
Proof.
  revert s. induction cs as [|c cs IH]; intros s Hs.
  - intros [= <-]. apply later_stage_refl.
  - rewrite sched_run_cons. destruct (sched_call s c) as [s1|] eqn:E; [|done]. simpl.
    intros Hrun. eapply later_stage_trans.
    + by eapply later_stage_sched_call.
    + apply IH; [by eapply reach_call | done].
Qed.

Lemma reachable_one_tick : reachable one_tick.
Proof.
  apply (reachable_run two_ready (replicate 1 ExecuteCycle));
    [apply reachable_two_ready | by vm_compute].
Defined.

Lemma reachable_five_ticks : reachable five_ticks.
Proof.
  apply (reachable_run two_ready (replicate 5 ExecuteCycle));
    [apply reachable_two_ready | by vm_compute].
Defined.

(** X1: in a reachable scheduler the ready queue holds no process twice,
    never holds the running process, and holds only Ready or Terminated
    processes. *)
Theorem ready_queue_discipline (s : ProcessScheduler) :
  reachable s →
  NoDup (ready_queue s)
  ∧ (∀ r, running_process s = Some r → r ∉ ready_queue s)
  ∧ (∀ r, r ∈ ready_queue s →
       ∃ p, heap s !! r = Some p ∧ (state p = READY ∨ state p = TERMINATED)).
Proof.
  intros Hs. pose proof (reachable_Inv _ Hs) as HI.
  pose proof (reachable_Queued _ Hs) as HQ.
  split_and!; [apply HQ | apply HQ |].
  intros r Hr. destruct (st_queue _ (inv_struct _ HI) _ Hr) as [p Hp].
  exists p. split; [done|].
  destruct (q_state _ HQ _ _ Hp) as [?|[Hrun|?]]; [by left| |by right].
  pose proof (inv_single _ HI _ _ Hp Hrun) as Er.
  by destruct (q_running _ HQ _ Er).
Qed.

Lemma ready_queue_discipline_witness :
  reachable four_ticks
  ∧ NoDup (ready_queue four_ticks)
  ∧ (∀ r, running_process four_ticks = Some r → r ∉ ready_queue four_ticks)
  ∧ (∀ r, r ∈ ready_queue four_ticks →
       ∃ p, heap four_ticks !! r = Some p
            ∧ (state p = READY ∨ state p = TERMINATED)).
Proof.
  split; [apply reachable_four_ticks|].
  apply (ready_queue_discipline four_ticks reachable_four_ticks).
Defined.

(** X2: a process of a reachable scheduler is Ready, Running or
    Terminated, never New or Waiting; a Ready one is in the ready queue, a
    Running one is exactly the one in the running slot, so every process
    that is not Terminated is queued or running. *)
Theorem process_states (s : ProcessScheduler) (r : nat) (p : Process) :
  reachable s → heap s !! r = Some p →
  (state p = READY ∨ state p = RUNNING ∨ state p = TERMINATED)
  ∧ (state p = READY → r ∈ ready_queue s)
  ∧ (state p = RUNNING ↔ running_process s = Some r)
  ∧ (state p ≠ TERMINATED → r ∈ ready_queue s ∨ running_process s = Some r).
Proof.
  intros Hs Hp. pose proof (reachable_Inv _ Hs) as HI.
  pose proof (reachable_Queued _ Hs) as HQ.
  pose proof (q_state _ HQ _ _ Hp) as Hst.
  assert (state p = RUNNING ↔ running_process s = Some r) as Hrun.
  { split; [by apply (inv_single _ HI)|].
    intros Er. destruct (inv_running _ HI _ Er) as (p' & Hp' & ?). congruence. }
  split_and!; [done | by apply (q_ready _ HQ) | done |].
  intros Hnt. destruct Hst as [?|[?|?]]; [left; by eapply (q_ready _ HQ) | right; by apply Hrun | done].
Qed.

Lemma process_states_witness :
  reachable four_ticks
  ∧ heap four_ticks !! 1%nat
    = Some (Process_with_state READY (Process_init 2 "B" 1 1024 0))
  ∧ 1%nat ∈ ready_queue four_ticks.
Proof.
  assert (heap four_ticks !! 1%nat
          = Some (Process_with_state READY (Process_init 2 "B" 1 1024 0))) as Hp
    by (by vm_compute).
  split_and!; [apply reachable_four_ticks | done |].
  by apply (process_states four_ticks 1%nat _ reachable_four_ticks Hp).
Defined.

(** X3: [cpu_time_used] of every process of a reachable scheduler is
    between 0 and 5, and a process at 5 is Terminated, out of the ready
    queue and out of the running slot. *)
Theorem cpu_time_bounded (s : ProcessScheduler) (r : nat) (p : Process) :
  reachable s → heap s !! r = Some p →
  0 <= cpu_time_used p <= 5
  ∧ (cpu_time_used p = 5 →
       state p = TERMINATED ∧ (r ∉ ready_queue s) ∧ running_process s ≠ Some r).
Proof.
  intros HQ%reachable_Queued Hp. split; [by eapply q_cpu | by eapply q_done].
Qed.

Lemma cpu_time_bounded_witness :
  reachable five_ticks
  ∧ heap five_ticks !! 0%nat
    = Some (Process_with_cpu 5 (Process_with_state TERMINATED (Process_init 1 "A" 2 1024 0)))
  ∧ (0%nat ∉ ready_queue five_ticks) ∧ running_process five_ticks ≠ Some 0%nat.
Proof.
  assert (heap five_ticks !! 0%nat
    = Some (Process_with_cpu 5 (Process_with_state TERMINATED (Process_init 1 "A" 2 1024 0))))
    as Hp by (by vm_compute).
  split_and!; [apply reachable_five_ticks | done |..];
    by apply (cpu_time_bounded five_ticks 0%nat _ reachable_five_ticks Hp).
Defined.

(** X4: whatever calls follow on a reachable scheduler, every process is
    still in the store and in the process table, with the pid, name,
    priority, memory requirement and creation time it was created with;
    its [cpu_time_used] never goes down and [next_pid] never goes down. *)
Theorem processes_persist (s : ProcessScheduler) (cs : list SchedCall)
    (s' : ProcessScheduler) :
  reachable s → sched_run s cs = Some s' →
  (∀ r p, heap s !! r = Some p →
     ∃ p', heap s' !! r = Some p' ∧ same_process p p')
  ∧ (∀ k r, processes s !! k = Some r → processes s' !! k = Some r)
  ∧ next_pid s <= next_pid s'.
Proof. apply later_stage_sched_run. Qed.

Lemma processes_persist_witness :
  reachable two_ready
  ∧ sched_run two_ready (replicate 5 ExecuteCycle) = Some five_ticks
  ∧ (∀ r p, heap two_ready !! r = Some p →
       ∃ p', heap five_ticks !! r = Some p' ∧ same_process p p')
  ∧ (∀ k r, processes two_ready !! k = Some r → processes five_ticks !! k = Some r)
  ∧ next_pid two_ready <= next_pid five_ticks.
Proof.
  assert (sched_run two_ready (replicate 5 ExecuteCycle) = Some five_ticks) as E
    by (by vm_compute).
  split_and!; [apply reachable_two_ready | done |..];
    by apply (processes_persist two_ready _ five_ticks reachable_two_ready E).
Defined.

(** X5: a process that has used its 5 ticks has finished for good: after
    any further calls it is still at 5 and Terminated, it is neither
    queued nor running, and [schedule] does not return it. *)
Theorem finished_process_never_runs (s : ProcessScheduler) (r : nat)
    (p : Process) (cs : list SchedCall) (s' : ProcessScheduler) :
  reachable s → heap s !! r = Some p → cpu_time_used p = 5 →
  sched_run s cs = Some s' →
  (∃ p', heap s' !! r = Some p' ∧ cpu_time_used p' = 5 ∧ state p' = TERMINATED)
  ∧ (r ∉ ready_queue s')
  ∧ running_process s' ≠ Some r
  ∧ ∀ s'' res, schedule s' = Some (s'', res) → res ≠ Some r.
Proof.
  intros Hs Hp H5 Hrun.
  pose proof (reachable_run _ _ _ Hs Hrun) as Hs'.
  destruct (later_stage_sched_run _ _ _ Hs Hrun) as (Hobj & _ & _).
  destruct (Hobj _ _ Hp) as (p' & Hp' & Hsame).
  pose proof (q_cpu _ (reachable_Queued _ Hs') _ _ Hp') as Hb.
  assert (cpu_time_used p' = 5) as H5'.
  { destruct Hsame as (_ & _ & _ & _ & _ & ?). lia. }
  destruct (q_done _ (reachable_Queued _ Hs') _ _ Hp' H5') as (? & ? & ?).
  split_and!; [by eauto | done | done |].
  intros s'' res E ->.
  pose proof (reachable_Inv _ Hs') as HI'.
  destruct (Inv_schedule _ _ _ HI' E) as (_ & Er & _). specialize (Er _ eq_refl).
  assert (reachable s'') as Hs''.
  { apply (reach_call s' Schedule); [done|]. simpl. by rewrite E. }
  destruct (later_stage_sched_call s' Schedule s'' Hs') as (Hobj' & _ & _);
    [simpl; by rewrite E|].
  destruct (Hobj' _ _ Hp') as (p'' & Hp'' & Hsame').
  pose proof (q_cpu _ (reachable_Queued _ Hs'') _ _ Hp'') as Hb'.
  assert (cpu_time_used p'' = 5) as H5''.
  { destruct Hsame' as (_ & _ & _ & _ & _ & ?). lia. }
  by destruct (q_done _ (reachable_Queued _ Hs'') _ _ Hp'' H5'') as (_ & _ & ?).
Qed.

Lemma finished_process_never_runs_witness :
  reachable five_ticks
  ∧ heap five_ticks !! 0%nat
    = Some (Process_with_cpu 5 (Process_with_state TERMINATED (Process_init 1 "A" 2 1024 0)))
  ∧ ∃ s', sched_run five_ticks [ExecuteCycle; TerminateProcess 1; Schedule] = Some s'
    ∧ (∃ p', heap s' !! 0%nat = Some p' ∧ cpu_time_used p' = 5 ∧ state p' = TERMINATED)
    ∧ (0%nat ∉ ready_queue s')
    ∧ running_process s' ≠ Some 0%nat
    ∧ ∀ s'' res, schedule s' = Some (s'', res) → res ≠ Some 0%nat.
Proof.
  assert (heap five_ticks !! 0%nat
    = Some (Process_with_cpu 5 (Process_with_state TERMINATED (Process_init 1 "A" 2 1024 0))))
    as Hp by (by vm_compute).
  assert (is_Some (sched_run five_ticks [ExecuteCycle; TerminateProcess 1; Schedule]))
    as [s' Hrun] by (vm_compute; eexists; reflexivity).
  split_and!; [apply reachable_five_ticks | done |].
  exists s'. split; [done|].
  apply (finished_process_never_runs five_ticks 0%nat _
           [ExecuteCycle; TerminateProcess 1; Schedule] s'
           reachable_five_ticks Hp); [done | done].
Defined.

(** Only [create_process] touches the process table, [next_pid] and the
    number of objects. *)
Lemma Schedule_spec_frame s s' res :
  Schedule_spec s s' res →
  processes s' = processes s ∧ next_pid s' = next_pid s
  ∧ length (heap s') = length (heap s).
Proof.
  assert (∀ s1, demoted s s1 →
            processes s1 = processes s ∧ next_pid s1 = next_pid s
            ∧ length (heap s1) = length (heap s)) as Hd.
  { intros s1 [Hn|r0 p0 Er Ep Hc]; [done|]. simpl. by rewrite length_alter. }
  intros [r p Hr Hp Hc|s1 next rest Hdem Hsort|s1 Hdem He]; [done| |by apply Hd].
  destruct (Hd _ Hdem) as (? & ? & ?). simpl. by rewrite length_alter.
Qed.

Lemma terminate_process_frame s k s' :
  Inv s → terminate_process s k = Some s' →
  processes s' = processes s ∧ next_pid s' = next_pid s
  ∧ length (heap s') = length (heap s) ∧ ready_queue s' = ready_queue s.
Proof.
  intros HI. rewrite terminate_process_eq by done.
  destruct (processes s !! k) as [r|]; intros [= <-]; [|done].
  case_bool_decide; simpl; by rewrite length_alter.
Qed.

Lemma sched_call_frame s c s' :
  reachable s → sched_call s c = Some s' →
  match c with
  | CreateProcess _ _ _ _ => True
  | _ => processes s' = processes s ∧ next_pid s' = next_pid s
         ∧ length (heap s') = length (heap s)
  end.
Proof.
  intros HI%reachable_Inv. destruct c as [n pr mem now| | |k]; cbn [sched_call]; [done|..].
  - destruct (schedule s) as [[s1 res]|] eqn:E; [|done]. intros [= <-].
    eapply Schedule_spec_frame, schedule_sound; [apply HI | done].
  - destruct (schedule_total _ HI) as [[s1 res] E].
    rewrite (execute_cycle_eq _ _ _ E).
    destruct (Schedule_spec_frame _ _ _
                (schedule_sound _ _ _ (st_quantum _ (inv_struct _ HI)) E)) as (T1 & N1 & L1).
    destruct (Inv_schedule _ _ _ HI E) as (HI1 & _ & _).
    destruct res as [r|]; [|by intros [= <-]].
    destruct (heap s1 !! r) as [p|] eqn:Hp; [|done]. simpl.
    case_bool_decide.
    + intros Ht. apply terminate_process_frame in Ht as (T2 & N2 & L2 & _);
        [|by apply Inv_set_cpu].
      simpl in *. rewrite length_alter in L2. split_and!; congruence.
    + intros [= <-]. simpl. rewrite length_alter. done.
  - intros Ht. by apply terminate_process_frame in Ht as (? & ? & ? & _).
Qed.

Lemma table_domain_inv (s : ProcessScheduler) :
  reachable s →
  (∀ k, is_Some (processes s !! k) ↔ 1 <= k < next_pid s)
  ∧ Z.of_nat (length (heap s)) = next_pid s - 1.
Proof.
  induction 1 as [|s c s' Hs [IHd IHl] E].
  - split; [|done]. intros k. simpl. rewrite lookup_empty. split; [by intros [? ?] | lia].
  - pose proof (sched_call_frame _ _ _ Hs E) as Hf.
    destruct c as [n pr mem now| | |k0];
      try (destruct Hf as (-> & -> & Hl); split; [done | by rewrite Hl]).
    cbn [sched_call] in E. rewrite create_process_eq in E. injection E as <-.
    simpl. split.
    + intros k. rewrite lookup_insert. case_decide as Ek.
      * subst k. split; [intros _|by eauto].
        pose proof (proj1 (IHd 1)). lia.
      * rewrite IHd. lia.
    + rewrite length_app. simpl. lia.
Qed.

(** X6: the pids of the process table of a reachable scheduler are
    exactly 1, ..., [next_pid - 1], one object each: no call removes a
    process from the table, and no pid is skipped or given twice. *)
Theorem process_table_domain (s : ProcessScheduler) :
  reachable s →
  (∀ k, is_Some (processes s !! k) ↔ 1 <= k < next_pid s)
  ∧ Z.of_nat (length (heap s)) = next_pid s - 1
  ∧ (∀ k r, processes s !! k = Some r → pid <$> heap s !! r = Some k).
Proof.
  intros Hs. destruct (table_domain_inv s Hs) as [Hdom Hlen].
  split_and!; [done..|].
  intros k r Hk.
  destruct (st_table _ (inv_struct _ (reachable_Inv _ Hs)) _ _ Hk) as (p & -> & <-).
  done.
Qed.

Lemma process_table_domain_witness :
  reachable five_ticks
  ∧ (∀ k, is_Some (processes five_ticks !! k) ↔ 1 <= k < 3)
  ∧ length (heap five_ticks) = 2%nat.
Proof.
  split; [apply reachable_five_ticks|].
  destruct (process_table_domain five_ticks reachable_five_ticks) as (Hd & Hl & _).
  split; [exact Hd | exact (Nat2Z.inj _ 2%nat Hl)].
Defined.

(** X7: [terminate_process] of a pid that was never handed out (below 1,
    or [next_pid] and above) raises nothing and changes nothing. *)
Theorem terminate_unknown_pid (s : ProcessScheduler) (k : Z) :
  reachable s → ¬ (1 <= k < next_pid s) →
  terminate_process s k = Some s.
Proof.
  intros Hs Hk. destruct (table_domain_inv s Hs) as (Hd & _).
  unfold terminate_process.
  destruct (processes s !! k) eqn:E; [|done].
  destruct Hk. apply Hd. by eexists.
Qed.

Lemma terminate_unknown_pid_witness :
  reachable four_ticks ∧ ¬ (1 <= 7 < next_pid four_ticks)
  ∧ terminate_process four_ticks 7 = Some four_ticks.
Proof.
  assert (¬ (1 <= 7 < next_pid four_ticks)) as Hk by (vm_compute; intros [_ ?]; done).
  split_and!; [apply reachable_four_ticks | done |].
  exact (terminate_unknown_pid four_ticks 7 reachable_four_ticks Hk).
Defined.

Lemma set_state_twice r st s :
  set_state r st (set_state r st s) = set_state r st s.
Proof.
  unfold set_state, with_heap. simpl. f_equal.
  apply list_eq. intros i. rewrite !lookup_set_field.
  case_decide; [|done]. by destruct (heap s !! i).
Qed.

(** X8: terminating the same pid a second time changes nothing. *)
Theorem terminate_process_idempotent (s : ProcessScheduler) (k : Z)
    (s' : ProcessScheduler) :
  reachable s → terminate_process s k = Some s' →
  terminate_process s' k = Some s'.
Proof.
  intros Hs Ht.
  assert (reachable s') as Hs' by (by apply (reach_call s (TerminateProcess k))).
  pose proof (reachable_Inv _ Hs) as HI. pose proof (reachable_Inv _ Hs') as HI'.
  rewrite terminate_process_eq in Ht by done.
  rewrite terminate_process_eq by done.
  destruct (processes s !! k) as [r|] eqn:Ek; injection Ht as <-.
  - case_bool_decide as Er; simpl; rewrite Ek.
    + change (Some (with_running None
                      (set_state r TERMINATED (set_state r TERMINATED s)))
              = Some (with_running None (set_state r TERMINATED s))).
      by rewrite set_state_twice.
    + rewrite bool_decide_eq_false_2 by done.
      by rewrite set_state_twice.
  - by rewrite Ek.
Qed.

Lemma terminate_process_idempotent_witness :
  reachable four_ticks
  ∧ ∃ s', terminate_process four_ticks 1 = Some s'
          ∧ running_process s' = None
          ∧ terminate_process s' 1 = Some s'.
Proof.
  split; [apply reachable_four_ticks|].
  eexists. split; [by vm_compute|]. split; [done|].
  exact (terminate_process_idempotent four_ticks 1 _ reachable_four_ticks eq_refl).
Defined.

Lemma set_cpu_twice r c1 c2 s :
  set_cpu r c2 (set_cpu r c1 s) = set_cpu r c2 s.
Proof.
  unfold set_cpu, with_heap. simpl. f_equal.
  apply list_eq. intros i. rewrite !lookup_set_field.
  case_decide; [|done]. by destruct (heap s !! i).
Qed.

Lemma ticks_S n s : ticks (S n) s = s1 ← execute_cycle s; ticks n s1.
Proof. unfold ticks. simpl replicate. by rewrite sched_run_cons. Qed.

(** A tick while the running process has quantum left. *)
Lemma execute_cycle_within_quantum s r p :
  Inv s → running_process s = Some r → heap s !! r = Some p →
  cpu_time_used p < 3 →
  execute_cycle s = Some (set_cpu r (cpu_time_used p + 1) s).
Proof.
  intros HI Er Hp Hc.
  assert (schedule s = Some (s, Some r)) as E.
  { unfold schedule. rewrite Er, Hp. simpl.
    rewrite (st_quantum _ (inv_struct _ HI)). by rewrite bool_decide_eq_true_2. }
  rewrite (execute_cycle_eq _ _ _ E), Hp. simpl.
  by rewrite bool_decide_eq_false_2 by lia.
Qed.

(** X9: no preemption inside the quantum.  While the running process has
    used fewer than 3 ticks, ticks only advance its [cpu_time_used]: the
    ready queue, the running slot and every other process stay as they
    are, whatever the priorities of the queued processes. *)
Theorem quantum_without_preemption (s : ProcessScheduler) (r : nat)
    (p : Process) (n : nat) :
  reachable s → running_process s = Some r → heap s !! r = Some p →
  (1 <= n)%nat → cpu_time_used p + Z.of_nat n <= 3 →
  ticks n s = Some (set_cpu r (cpu_time_used p + Z.of_nat n) s).
Proof.
  intros Hs. revert s p Hs. induction n as [|n IH]; intros s p Hs Er Hp Hn Hc; [lia|].
  pose proof (reachable_Inv _ Hs) as HI.
  rewrite ticks_S.
  rewrite (execute_cycle_within_quantum s r p) by (done || lia). simpl.
  replace (cpu_time_used p + Z.of_nat (S n))
    with (cpu_time_used p + 1 + Z.of_nat n) by lia.
  destruct n as [|n].
  - replace (cpu_time_used p + 1 + Z.of_nat 0) with (cpu_time_used p + 1) by lia.
    done.
  - rewrite (IH _ (Process_with_cpu (cpu_time_used p + 1) p)).
    + by rewrite set_cpu_twice.
    + apply (reach_call s ExecuteCycle); [done|]. simpl.
      by apply execute_cycle_within_quantum; [..|lia].
    + done.
    + simpl. by rewrite list_lookup_alter_eq, Hp.
    + lia.
    + simpl. lia.
Qed.

Lemma quantum_without_preemption_witness :
  reachable one_tick
  ∧ running_process one_tick = Some 0%nat
  ∧ heap one_tick !! 0%nat
    = Some (Process_with_cpu 1 (Process_with_state RUNNING (Process_init 1 "A" 2 1024 0)))
  ∧ ticks 2 one_tick = Some (set_cpu 0 3 one_tick).
Proof.
  assert (heap one_tick !! 0%nat
    = Some (Process_with_cpu 1 (Process_with_state RUNNING (Process_init 1 "A" 2 1024 0))))
    as Hp by (by vm_compute).
  split_and!; [apply reachable_one_tick | done | done |].
  apply (quantum_without_preemption one_tick 0%nat _ 2 reachable_one_tick eq_refl Hp);
    [lia | simpl; lia].
Defined.

Lemma StronglySorted_weaken {A} (R R' : A → A → Prop) l :
  (∀ a b, R a b → R' a b) → StronglySorted R l → StronglySorted R' l.
Proof.
  intros HR. induction 1 as [|x l Hl IH Hx]; constructor; [done|].
  eapply Forall_impl; [exact Hx | by auto].
Qed.

(** X10: when [schedule] does not keep the running process, the process
    it selects has a priority at least that of every process left in the
    ready queue, and the ready queue is left in descending priority
    order. *)
Theorem schedule_selects_highest_priority (s s' : ProcessScheduler) (r : nat) :
  reachable s → schedule s = Some (s', Some r) →
  (∃ p, running_process s = Some r ∧ heap s !! r = Some p
        ∧ cpu_time_used p < 3 ∧ s' = s)
  ∨ (StronglySorted (λ a b, prio_at (heap s') a >= prio_at (heap s') b)
       (r :: ready_queue s')
     ∧ ∀ r', r' ∈ ready_queue s' → prio_at (heap s') r' <= prio_at (heap s') r).
Proof.
  intros HI%reachable_Inv E.
  apply schedule_sound in E; [|apply HI].
  inversion E as [r0 p Hr Hp Hc|s1 next rest Hd [Hsorted _]|]; subst.
  - left. eauto.
  - right. simpl.
    assert (StronglySorted
              (λ a b, prio_at (alter (Process_with_state RUNNING) r (heap s1)) a
                      >= prio_at (alter (Process_with_state RUNNING) r (heap s1)) b)
              (r :: rest)) as Hs'.
    { eapply StronglySorted_weaken; [|exact Hsorted].
      intros a b. simpl.
      by rewrite !(prio_at_set_field (Process_with_state RUNNING) r (heap s1)
                     (λ _, eq_refl)). }
    split; [done|].
    apply StronglySorted_inv in Hs' as [_ Hall]. rewrite Forall_forall in Hall.
    intros r' Hr'. specialize (Hall _ Hr'). simpl in Hall. lia.
Qed.

Lemma schedule_selects_highest_priority_witness :
  reachable two_ready
  ∧ ∃ s', schedule two_ready = Some (s', Some 0%nat)
    ∧ ∀ r', r' ∈ ready_queue s' → prio_at (heap s') r' <= prio_at (heap s') 0%nat.
Proof.
  split; [apply reachable_two_ready|].
  eexists. split; [by vm_compute|].
  destruct (schedule_selects_highest_priority two_ready _ 0%nat
              reachable_two_ready eq_refl) as [(p & _ & _ & _ & Hs)|[_ H]].
  - by vm_compute in Hs.
  - exact H.
Defined.

(** X11: [schedule] answers none exactly when nothing runs and the ready
    queue is empty; it then leaves the scheduler as it is, and so does a
    tick. *)
Theorem idle_iff_nothing_to_run (s : ProcessScheduler) :
  reachable s →
  ((∃ s', schedule s = Some (s', None))
     ↔ running_process s = None ∧ ready_queue s = [])
  ∧ (running_process s = None → ready_queue s = [] →
       schedule s = Some (s, None) ∧ execute_cycle s = Some s).
Proof.
  intros HI%reachable_Inv.
  assert (running_process s = None → ready_queue s = [] →
            schedule s = Some (s, None)) as Hidle.
  { intros Er Eq. unfold schedule, select_next. by rewrite Er, Eq. }
  split.
  - split.
    + intros [s' E]. by destruct (Inv_schedule _ _ _ HI E) as (_ & _ & (_ & ? & ?)).
    + intros [Er Eq]. eauto.
  - intros Er Eq. split; [by apply Hidle|].
    by rewrite (execute_cycle_eq _ _ _ (Hidle Er Eq)).
Qed.

Lemma idle_iff_nothing_to_run_witness :
  reachable ProcessScheduler_init
  ∧ schedule ProcessScheduler_init = Some (ProcessScheduler_init, None)
  ∧ execute_cycle ProcessScheduler_init = Some ProcessScheduler_init.
Proof.
  split; [apply reach_init|].
  apply (idle_iff_nothing_to_run ProcessScheduler_init reach_init); reflexivity.
Defined.

(* ===================================================================== *)
(** ** MemoryManager: freeing, bounds, round trip                        *)
(* ===================================================================== *)

Lemma free_pages_fields (l : list nat) (m : MemoryManager) :
  page_size (foldl free_page m l) = page_size m
  ∧ total_memory (foldl free_page m l) = total_memory m
  ∧ available_memory (foldl free_page m l)
    = available_memory m + page_size m * Z.of_nat (length l)
  ∧ ∀ i, memory_map (foldl free_page m l) !! i
         = if decide (i ∈ l) then None else memory_map m !! i.
Proof.
  revert m. induction l as [|j l IH]; intros m; simpl.
  - split_and!; [done | done | lia | done].
  - destruct (IH (free_page m j)) as (H1 & H2 & H3 & H4). simpl in *.
    split_and!; [done | done | lia |].
    intros i. rewrite H4. destruct (decide (i = j)) as [->|Hne].
    + rewrite lookup_delete_eq.
      rewrite (decide_True (P := j ∈ j :: l)) by left. by case_decide.
    + rewrite lookup_delete_ne by done.
      destruct (decide (i ∈ l)) as [Hi|Hi].
      * rewrite decide_True; [done | by right].
      * rewrite decide_False; [done|]. by intros [?|?]%elem_of_cons.
Qed.

Lemma free_pages_sum (l : list nat) (m : MemoryManager) :
  NoDup l → (∀ i, i ∈ l → is_Some (memory_map m !! i)) →
  available_memory (foldl free_page m l)
    + page_size m * Z.of_nat (size (memory_map (foldl free_page m l)))
  = available_memory m + page_size m * Z.of_nat (size (memory_map m)).
Proof.
  revert m. induction l as [|i l IH]; intros m Hnd Hin; [done|].
  apply NoDup_cons in Hnd as [Hi Hnd].
  assert (∀ j, j ∈ l → is_Some (memory_map (free_page m i) !! j)) as Hin'.
  { intros j Hj. simpl. rewrite lookup_delete_ne; [apply Hin; by right|].
    intros ->. done. }
  pose proof (IH (free_page m i) Hnd Hin') as E.
  destruct (Hin i) as [x Hx]; [left|].
  pose proof (map_size_delete_Some i (memory_map m) (mk_is_Some _ _ Hx)) as Hsz.
  pose proof (map_size_ne_0_lookup_2 (memory_map m) i (mk_is_Some _ _ Hx)).
  simpl in *. rewrite E, Hsz.
  replace (Z.of_nat (pred (size (memory_map m))))
    with (Z.of_nat (size (memory_map m)) - 1) by lia.
  lia.
Qed.

Lemma elem_of_pages_to_free (mm : gmap nat PageInfo) k i :
  i ∈ pages_to_free mm k ↔ ∃ x, mm !! i = Some x ∧ process x = k.
Proof.
  unfold pages_to_free. rewrite list_elem_of_fmap. split.
  - intros ([i' x] & -> & Hix). apply elem_of_map_to_list, map_lookup_filter_Some in Hix.
    eauto.
  - intros (x & Hx & Hk). exists (i, x). split; [done|].
    by apply elem_of_map_to_list, map_lookup_filter_Some.
Qed.

(** X12: [free_memory(pid)] removes exactly the pages owned by [pid] and
    leaves every other page as it is; it gives back [page_size] per page
    removed; afterwards [pid] owns no page, so freeing it again changes
    nothing.  [total_memory] and [page_size] are not touched. *)
Theorem free_memory_releases (m : MemoryManager) (k : Z) :
  memory_map (free_memory m k) = filter (λ kv, process kv.2 ≠ k) (memory_map m)
  ∧ available_memory (free_memory m k)
    = available_memory m
      + page_size m * Z.of_nat (size (filter (λ kv, process kv.2 = k) (memory_map m)))
  ∧ total_memory (free_memory m k) = total_memory m
  ∧ page_size (free_memory m k) = page_size m
  ∧ pages_to_free (memory_map (free_memory m k)) k = []
  ∧ free_memory (free_memory m k) k = free_memory m k.
Proof.
  unfold free_memory at 1 2 3 4 5.
  destruct (free_pages_fields (pages_to_free (memory_map m) k) m) as (H1 & H2 & H3 & H4).
  fold (free_memory m k) in *.
  assert (memory_map (free_memory m k)
          = filter (λ kv, process kv.2 ≠ k) (memory_map m)) as Hmap.
  { apply map_eq. intros i. rewrite H4. apply option_eq. intros x.
    rewrite map_lookup_filter_Some. simpl. case_decide as Hi.
    - apply elem_of_pages_to_free in Hi as (y & Hy & Hk).
      split; [done|]. intros [? ?]. congruence.
    - split; [|by intros [? _]]. intros Hx. split; [done|].
      intros Hk. apply Hi, elem_of_pages_to_free. eauto. }
  assert (pages_to_free (memory_map (free_memory m k)) k = []) as Hnil.
  { apply elem_of_nil_inv. intros i (x & Hx & Hk)%elem_of_pages_to_free.
    rewrite Hmap in Hx. apply map_lookup_filter_Some in Hx as [_ ?]. done. }
  split_and!; try done.
  - rewrite H3. unfold pages_to_free. by rewrite length_fmap, length_map_to_list.
  - unfold free_memory at 1. by rewrite Hnil.
Qed.

(** X13: [free_memory] keeps the sum
    [available_memory + page_size * len(memory_map)], whatever it was: if
    memory was conserved before the call it is conserved after it. *)
Theorem free_memory_keeps_sum (m : MemoryManager) (k : Z) :
  available_memory (free_memory m k)
    + page_size m * Z.of_nat (size (memory_map (free_memory m k)))
  = available_memory m + page_size m * Z.of_nat (size (memory_map m))
  ∧ (conserved m → conserved (free_memory m k)).
Proof.
  split; [|apply free_memory_conserved].
  apply free_pages_sum; [apply NoDup_fst_map_to_list|].
  intros i (x & Hx & _)%elem_of_pages_to_free. eauto.
Qed.

Lemma pages_needed_nonpositive (sz : Z) :
  sz <= 0 → (sz + 4096 - 1) / 4096 = - ((- sz) / 4096).
Proof.
  intros Hsz. symmetry.
  apply (Z.div_unique _ _ _ (4095 - (- sz) mod 4096)).
  - left. pose proof (Z.mod_pos_bound (- sz) 4096 ltac:(lia)). lia.
  - pose proof (Z.div_mod (- sz) 4096 ltac:(lia)). lia.
Qed.

(** X14: a request of zero or a negative number of bytes (within what is
    available) is not refused: it returns no page and leaves the page map
    alone, and it raises [available_memory] by 4096 for every full 4096
    bytes of the negative size; for sizes in -4095..0 nothing changes. *)
Theorem allocate_memory_nonpositive (m : MemoryManager) (p : Process)
    (sz : Z) (clock : nat → Z) :
  page_size m = 4096 → sz <= 0 → sz <= available_memory m →
  (allocate_memory m p sz clock).2 = inr []
  ∧ memory_map (allocate_memory m p sz clock).1 = memory_map m
  ∧ available_memory (allocate_memory m p sz clock).1
    = available_memory m + 4096 * ((- sz) / 4096)
  ∧ (-4096 < sz → (allocate_memory m p sz clock).1 = m).
Proof.
  intros Hps Hsz Hav. unfold allocate_memory, pages_needed_of.
  rewrite bool_decide_eq_false_2 by lia.
  rewrite Hps, pages_needed_nonpositive by done.
  assert (0 <= (- sz) / 4096) as Hq by (apply Z.div_pos; lia).
  replace (Z.to_nat (- (- sz / 4096))) with 0%nat by lia. simpl.
  split_and!; [done | done | lia |].
  intros Hgt. rewrite Z.div_small by lia. destruct m; simpl in *. f_equal; lia.
Qed.

Lemma allocate_memory_nonpositive_witness :
  page_size two_pages = 4096 ∧ -10000 <= 0 ∧ -10000 <= available_memory two_pages
  ∧ (allocate_memory two_pages (proc 2) (-10000) clock0).2 = inr []
  ∧ available_memory two_pages = 8192
  ∧ available_memory (allocate_memory two_pages (proc 2) (-10000) clock0).1 = 16384.
Proof.
  assert (-10000 <= available_memory two_pages) as Hav by (by vm_compute).
  destruct (allocate_memory_nonpositive two_pages (proc 2) (-10000) clock0
              eq_refl ltac:(lia) Hav) as (H1 & _ & H3 & _).
  split_and!; [done | lia | done | exact H1 | done | exact H3].
Defined.

(** What a successful allocation does to the fields, whatever the page
    map looks like. *)
Lemma allocate_memory_fields (m : MemoryManager) (p : Process) (sz : Z) clock :
  page_size (allocate_memory m p sz clock).1 = page_size m
  ∧ total_memory (allocate_memory m p sz clock).1 = total_memory m
  ∧ available_memory (allocate_memory m p sz clock).1
    = if bool_decide (sz > available_memory m) then available_memory m
      else available_memory m - pages_needed_of m sz * page_size m.
Proof.
  unfold allocate_memory. case_bool_decide; [done|].
  by destruct (allocate_loop _ _ _ _ _ _).
Qed.

(** X15: on a manager created with a non-negative [total_memory], no run
    of allocations and frees changes [total_memory] or [page_size], and
    [available_memory] never falls to -4096 or below: an allocation
    overdraws by less than one page. *)
Theorem available_memory_lower_bound (total : Z) (cs : list MemCall) :
  0 <= total →
  let m := mem_run (MemoryManager_init total) cs in
  page_size m = 4096 ∧ total_memory m = total ∧ -4096 < available_memory m.
Proof.
  intros Ht.
  assert (∀ m, page_size m = 4096 ∧ total_memory m = total ∧ -4096 < available_memory m →
    page_size (mem_run m cs) = 4096 ∧ total_memory (mem_run m cs) = total
    ∧ -4096 < available_memory (mem_run m cs)) as Hgen.
  { induction cs as [|c cs IH]; intros m (Hps & Htot & Hav); [done|].
    simpl. apply IH. destruct c as [p sz clock|k]; simpl.
    - destruct (allocate_memory_fields m p sz clock) as (-> & -> & ->).
      split_and!; [done..|]. case_bool_decide; [done|].
      unfold pages_needed_of. rewrite Hps.
      pose proof (Z.mul_succ_div_gt (sz + 4096 - 1) 4096 ltac:(lia)).
      pose proof (Z.mul_div_le (sz + 4096 - 1) 4096 ltac:(lia)). lia.
    - unfold free_memory.
      destruct (free_pages_fields (pages_to_free (memory_map m) k) m)
        as (-> & -> & -> & _).
      split_and!; [done..|]. rewrite Hps. lia. }
  apply Hgen. simpl. split_and!; [done | done | lia].
Qed.

Lemma available_memory_lower_bound_witness :
  0 <= 5000
  ∧ let m := mem_run (MemoryManager_init 5000) [AllocateMemory (proc 1) 5000 clock0] in
    page_size m = 4096 ∧ total_memory m = 5000 ∧ -4096 < available_memory m.
Proof.
  split; [lia|].
  apply (available_memory_lower_bound 5000 [AllocateMemory (proc 1) 5000 clock0]). lia.
Defined.

(** X16: on a manager whose page ids are [0 .. len-1] (no page below the
    top was freed), a successful request of [sz >= 0] bytes adds exactly
    ceil(sz / 4096) pages, all owned by the process, under ids that were
    free before; it returns these ids in order, touches no other page,
    takes 4096 per page from [available_memory] and keeps the page ids
    without holes. *)
Theorem allocation_on_dense_map (m : MemoryManager) (p : Process) (sz : Z)
    (clock : nat → Z) :
  page_size m = 4096 → dense (memory_map m) →
  0 <= sz <= available_memory m →
  let r := allocate_memory m p sz clock in
  let n := Z.to_nat ((sz + 4095) / 4096) in
  4096 * ((sz + 4095) / 4096 - 1) < sz <= 4096 * ((sz + 4095) / 4096)
  ∧ r.2 = inr (seq (size (memory_map m)) n)
  ∧ size (memory_map r.1) = (size (memory_map m) + n)%nat
  ∧ available_memory r.1 = available_memory m - 4096 * Z.of_nat n
  ∧ (∀ j, j ∈ seq (size (memory_map m)) n →
       memory_map m !! j = None ∧ process <$> memory_map r.1 !! j = Some (pid p))
  ∧ (∀ j, (j < size (memory_map m))%nat → memory_map r.1 !! j = memory_map m !! j)
  ∧ dense (memory_map r.1)
  ∧ (conserved m → conserved r.1).
Proof. apply allocate_memory_dense. Qed.

Lemma dense_two_pages : dense (memory_map two_pages).
Proof.
  intros i. change (size (memory_map two_pages)) with 2%nat.
  destruct i as [|[|i]].
  - split; [lia | intros _; eexists; vm_compute; reflexivity].
  - split; [lia | intros _; eexists; vm_compute; reflexivity].
  - split; [|lia]. intros [x Hx]. exfalso. revert Hx.
    change (memory_map two_pages)
      with (<[1%nat:={| process := 1; allocated_at := 0 |}]>
              (<[0%nat:={| process := 1; allocated_at := 0 |}]> (∅ : gmap nat PageInfo))).
    rewrite !lookup_insert_ne, lookup_empty by lia. done.
Defined.

Lemma allocation_on_dense_map_witness :
  page_size two_pages = 4096 ∧ dense (memory_map two_pages)
  ∧ 0 <= 4097 <= available_memory two_pages
  ∧ (allocate_memory two_pages (proc 2) 4097 clock0).2 = inr [2%nat; 3%nat]
  ∧ available_memory (allocate_memory two_pages (proc 2) 4097 clock0).1 = 0.
Proof.
  assert (0 <= 4097 <= available_memory two_pages) as Hsz by (by vm_compute).
  destruct (allocation_on_dense_map two_pages (proc 2) 4097 clock0
              eq_refl dense_two_pages Hsz) as (_ & H2 & _ & H4 & _).
  split; [done|]. split; [apply dense_two_pages|]. split; [exact Hsz|]. split.
  - rewrite H2. by vm_compute.
  - rewrite H4. by vm_compute.
Defined.

(** X17: on a new manager, a run of allocations of non-negative sizes,
    granted or refused, with no [free_memory] in between, conserves
    memory and keeps the page ids [0 .. len-1]. *)
Theorem allocation_runs_conserve (total : Z) (cs : list MemCall) :
  Forall (λ c, match c with
               | AllocateMemory _ sz _ => 0 <= sz
               | FreeMemory _ => False
               end) cs →
  conserved (mem_run (MemoryManager_init total) cs)
  ∧ dense (memory_map (mem_run (MemoryManager_init total) cs)).
Proof. apply allocations_conserved. Qed.

Lemma allocation_runs_conserve_witness :
  conserved (mem_run (MemoryManager_init 16384)
               [AllocateMemory (proc 1) 5000 clock0;
                AllocateMemory (proc 2) 9000 clock0;
                AllocateMemory (proc 3) 1 clock0])
  ∧ dense (memory_map (mem_run (MemoryManager_init 16384)
               [AllocateMemory (proc 1) 5000 clock0;
                AllocateMemory (proc 2) 9000 clock0;
                AllocateMemory (proc 3) 1 clock0])).
Proof.
  apply (allocation_runs_conserve 16384).
  repeat constructor; lia.
Defined.

(** X18: allocate, then free.  On a manager whose page ids are
    [0 .. len-1] and whose pages all belong to other processes, a
    successful allocation of [sz >= 0] bytes for a process followed by
    [free_memory] of its pid gives back the manager as it was: same page
    map, same [available_memory]. *)
Theorem allocate_then_free (m : MemoryManager) (p : Process) (sz : Z)
    (clock : nat → Z) :
  page_size m = 4096 → dense (memory_map m) →
  0 <= sz <= available_memory m →
  (∀ i x, memory_map m !! i = Some x → process x ≠ pid p) →
  free_memory (allocate_memory m p sz clock).1 (pid p) = m.
Proof.
  intros Hps Hd Hsz Hown.
  destruct (allocate_memory_dense m p sz clock Hps Hd Hsz)
    as (_ & _ & Hsize & Hav & Hnew & Hold & Hd1 & _).
  destruct (allocate_memory_fields m p sz clock) as (Hps1 & Htot1 & _).
  set (m1 := (allocate_memory m p sz clock).1) in *.
  assert (memory_map (free_memory m1 (pid p)) = memory_map m) as Hmap.
  { unfold free_memory.
    destruct (free_pages_fields (pages_to_free (memory_map m1) (pid p)) m1)
      as (_ & _ & _ & H4).
    apply map_eq. intros i. rewrite H4.
    destruct (decide (i < size (memory_map m))%nat) as [Hlt|Hge].
    - rewrite Hold by done. case_decide as Hi; [|done].
      apply elem_of_pages_to_free in Hi as (x & Hx & Hk).
      rewrite Hold in Hx by done. by destruct (Hown _ _ Hx).
    - assert (memory_map m !! i = None) as ->.
      { destruct (memory_map m !! i) eqn:E; [|done].
        pose proof (proj1 (Hd i) (mk_is_Some _ _ E)). lia. }
      case_decide as Hi; [done|].
      destruct (memory_map m1 !! i) as [x|] eqn:Ex; [|done].
      destruct Hi. apply elem_of_pages_to_free. exists x. split; [done|].
      pose proof (proj1 (Hd1 i) (mk_is_Some _ _ Ex)) as Hi1.
      destruct (Hnew i) as [_ Hp]; [apply elem_of_seq; lia|].
      rewrite Ex in Hp. by injection Hp. }
  assert (available_memory (free_memory m1 (pid p)) = available_memory m) as Havail.
  { pose proof (free_pages_sum (pages_to_free (memory_map m1) (pid p)) m1
                  (NoDup_fst_map_to_list _)) as Hsum.
    fold (free_memory m1 (pid p)) in Hsum. rewrite Hmap, Hps1, Hps, Hsize, Hav in Hsum.
    specialize (Hsum ltac:(intros i (x & Hx & _)%elem_of_pages_to_free; eauto)).
    lia. }
  assert (total_memory (free_memory m1 (pid p)) = total_memory m
          ∧ page_size (free_memory m1 (pid p)) = page_size m) as [Htot Hpsz].
  { unfold free_memory.
    destruct (free_pages_fields (pages_to_free (memory_map m1) (pid p)) m1)
      as (-> & -> & _ & _). done. }
  destruct (free_memory m1 (pid p)), m. simpl in *. congruence.
Qed.

Lemma allocate_then_free_witness :
  page_size two_pages = 4096 ∧ dense (memory_map two_pages)
  ∧ 0 <= 4097 <= available_memory two_pages
  ∧ (∀ i x, memory_map two_pages !! i = Some x → process x ≠ pid (proc 2))
  ∧ free_memory (allocate_memory two_pages (proc 2) 4097 clock0).1 2 = two_pages.
Proof.
  assert (0 <= 4097 <= available_memory two_pages) as Hsz by (by vm_compute).
  assert (∀ i x, memory_map two_pages !! i = Some x → process x ≠ pid (proc 2)) as Hown.
  { intros i x.
    change (memory_map two_pages)
      with (<[1%nat:={| process := 1; allocated_at := 0 |}]>
              (<[0%nat:={| process := 1; allocated_at := 0 |}]> (∅ : gmap nat PageInfo))).
    rewrite lookup_insert. case_decide; [by intros [= <-]|].
    rewrite lookup_insert. case_decide; [by intros [= <-]|].
    by rewrite lookup_empty. }
  split; [done|]. split; [apply dense_two_pages|]. split; [exact Hsz|].
  split; [exact Hown|].
  exact (allocate_then_free two_pages (proc 2) 4097 clock0 eq_refl dense_two_pages Hsz Hown).
Defined.

Lemma app_snoc_split {A} (q l1 l2 : list A) (r : A) :
  r ∉ q → q ++ [r] = l1 ++ r :: l2 → l1 = q ∧ l2 = [].
Proof.
  intros Hr E.
  assert (length l1 = length q) as Hlen.
  { destruct (decide (length l1 < length q)%nat) as [Hlt|Hge].
    - destruct Hr. apply list_elem_of_lookup. exists (length l1).
      rewrite <- (lookup_app_l q [r]) by done. rewrite E.
      by rewrite list_lookup_middle.
    - apply (f_equal length) in E. rewrite !length_app in E. simpl in E. lia. }
  apply app_inj_1 in E as [-> E]; [|done]. split; [done|].
  by injection E.
Qed.

(** X19: when the quantum of the running process is used up, [schedule]
    gives the CPU back to that same process exactly when every queued
    process has a strictly lower priority; a queued process of the same
    or a higher priority gets its turn, and lower ones keep waiting. *)
Theorem expired_quantum_yields (s s' : ProcessScheduler) (r next : nat)
    (p : Process) :
  reachable s → running_process s = Some r → heap s !! r = Some p →
  ¬ cpu_time_used p < 3 →
  schedule s = Some (s', Some next) →
  (next = r ↔ ∀ r2, r2 ∈ ready_queue s → prio_at (heap s) r2 < prio_at (heap s) r).
Proof.
  intros Hs Er Hp Hc E.
  pose proof (reachable_Inv _ Hs) as HI.
  pose proof (q_running _ (reachable_Queued _ Hs) _ Er) as Hnq.
  apply schedule_sound in E; [|apply HI].
  inversion E as [r0 p0 Hr0 Hp0 Hc0|s1 nx rest Hd Hsort|]; subst.
  { assert (p0 = p) as -> by congruence. done. }
  destruct Hd as [Hn|r0 p0 Er0 Ep0 _]; [congruence|].
  assert (r0 = r) as -> by congruence. simpl in Hsort.
  assert (stable_sort_desc (prio_at (heap s)) (ready_queue s ++ [r]) (next :: rest))
    as Hsort'.
  { rewrite <- (stable_sort_desc_cons_inv _ _ _ _ Hsort).
    rewrite (sorted_reverse_ext _ (prio_at (heap s)))
      by (by apply prio_at_set_field).
    apply sorted_reverse_stable. }
  destruct (stable_sort_desc_head _ _ _ _ Hsort') as (Hmax & l1 & l2 & Hsplit & Hl1).
  split.
  - intros ->. destruct (app_snoc_split _ _ _ _ Hnq Hsplit) as [-> _].
    intros r2 Hr2. by apply Hl1.
  - intros Hlow.
    assert (next ∈ ready_queue s ++ [r]) as Hin.
    { rewrite Hsplit. apply elem_of_app. right. left. }
    apply elem_of_app in Hin as [Hin|Hin%list_elem_of_singleton]; [|done].
    specialize (Hlow _ Hin).
    specialize (Hmax r ltac:(apply elem_of_app; right; left)). lia.
Qed.

Lemma expired_quantum_yields_witness :
  reachable four_ticks
  ∧ running_process four_ticks = Some 0%nat
  ∧ (cpu_time_used <$> heap four_ticks !! 0%nat) = Some 4
  ∧ ∃ s', schedule four_ticks = Some (s', Some 0%nat)
    ∧ ∀ r2, r2 ∈ ready_queue four_ticks →
        prio_at (heap four_ticks) r2 < prio_at (heap four_ticks) 0%nat.
Proof.
  assert (heap four_ticks !! 0%nat
    = Some (Process_with_cpu 4 (Process_with_state RUNNING (Process_init 1 "A" 2 1024 0))))
    as Hp by (by vm_compute).
  assert (is_Some (schedule four_ticks)) as [[s' res] E]
    by (vm_compute; eexists; reflexivity).
  assert (res = Some 0%nat) as ->.
  { apply (f_equal (fmap snd)) in E. vm_compute in E. by injection E. }
  split; [apply reachable_four_ticks|]. split; [done|]. split; [by rewrite Hp|].
  exists s'. split; [exact E|].
  apply (expired_quantum_yields four_ticks s' 0%nat 0%nat _
           reachable_four_ticks eq_refl Hp); [simpl; lia | exact E | done].
Defined.

(* ===================================================================== *)
(** ** SecurityManager, the command handlers, FileSystem                 *)
(* ===================================================================== *)

Section LibraryFacts.
Context (sha256_hex md5_hex : string → string).
Context (path_join : string → string → string).

Local Notation "'authenticate''" := (authenticate sha256_hex md5_hex).
Local Notation "'create_user''" := (create_user sha256_hex).
Local Notation "'handle_login''" := (handle_login sha256_hex md5_hex).

Lemma authenticate_cases (sm : SecurityManager) (u pw stamp : string) (now : Z) :
  let r := authenticate' sm u pw stamp now in
  (is_Some r.2 ↔
     ∃ info, users sm !! u = Some info ∧ hashed_password info = sha256_hex pw)
  ∧ (r.2 = None → r.1 = sm)
  ∧ (∀ sid, r.2 = Some sid →
       sid = md5_hex (u ++ stamp)%string
       ∧ users r.1 = users sm
       ∧ sessions r.1 !! sid = Some {| username := u; login_time := now |}
       ∧ ∀ sid', sid' ≠ sid → sessions r.1 !! sid' = sessions sm !! sid').
Proof.
  unfold authenticate. destruct (users sm !! u) as [info|] eqn:Eu; simpl.
  - case_bool_decide as Eh; simpl.
    + split_and!; [split; [by eauto | by eauto] | done |].
      intros sid [= <-]. split_and!; [done | done | apply lookup_insert_eq |].
      intros sid' Hne. by apply lookup_insert_ne.
    + split_and!; [|done|done]. split; [by intros [? ?]|].
      intros (info' & [= <-] & ?). done.
  - split_and!; [|done|done]. split; [by intros [? ?] | by intros (? & ? & _)].
Qed.

(** X20: [authenticate] answers with a session id exactly when the user
    is registered and the hash of the password equals the stored hash.
    On [False] (unknown user, wrong password) the manager is unchanged;
    on success the users are unchanged and exactly the session under the
    returned id is written, with that username. *)
Theorem authenticate_answer (sm : SecurityManager) (u pw stamp : string) (now : Z) :
  let r := authenticate' sm u pw stamp now in
  (is_Some r.2 ↔
     ∃ info, users sm !! u = Some info ∧ hashed_password info = sha256_hex pw)
  ∧ (r.2 = None → r.1 = sm)
  ∧ (∀ sid, r.2 = Some sid →
       sid = md5_hex (u ++ stamp)%string
       ∧ users r.1 = users sm
       ∧ sessions r.1 !! sid = Some {| username := u; login_time := now |}
       ∧ ∀ sid', sid' ≠ sid → sessions r.1 !! sid' = sessions sm !! sid').
Proof. apply authenticate_cases. Qed.

(** X21: register, then log in.  Right after [create_user(u, pw)], on
    any manager and whether or not [u] existed before, [authenticate(u,
    pw')] succeeds exactly when [pw'] hashes like [pw]; so the password
    just set always works and the one it replaced works no more unless
    the hashes agree. *)
Theorem create_user_then_authenticate (sm : SecurityManager)
    (u pw pw' stamp : string) (t now : Z) :
  (is_Some (authenticate' (create_user' sm u pw t) u pw' stamp now).2
     ↔ sha256_hex pw' = sha256_hex pw)
  ∧ (authenticate' (create_user' sm u pw t) u pw stamp now).2
    = Some (md5_hex (u ++ stamp)%string).
Proof.
  unfold authenticate, create_user. simpl. rewrite lookup_insert_eq. simpl.
  split.
  - case_bool_decide as E; simpl.
    + split; [by intros _ | by eauto].
    + split; [by intros [? ?] | by intros E'].
  - by rewrite bool_decide_eq_true_2.
Qed.

(** X22: [create_user] for one name leaves the answer of [authenticate]
    for every other name as it was, and never touches the sessions. *)
Theorem create_user_other_names (sm : SecurityManager)
    (u u2 pw pw2 stamp : string) (t now : Z) :
  u ≠ u2 →
  (authenticate' (create_user' sm u2 pw2 t) u pw stamp now).2
  = (authenticate' sm u pw stamp now).2
  ∧ sessions (create_user' sm u2 pw2 t) = sessions sm.
Proof.
  intros Hne. split; [|done].
  unfold authenticate, create_user. simpl. rewrite lookup_insert_ne by done.
  destruct (users sm !! u) as [info|]; [|done].
  by case_bool_decide.
Qed.

(** X23: in a security manager that started empty, whatever users were
    created and whatever logins were tried, every session belongs to a
    registered user; users are never removed. *)
Theorem sessions_of_registered_users (cs : list SecCall) :
  let sm := foldl (sec_call sha256_hex md5_hex) SecurityManager_init cs in
  ∀ sid info, sessions sm !! sid = Some info → is_Some (users sm !! username info).
Proof.
  assert (∀ sm,
    (∀ sid info, sessions sm !! sid = Some info → is_Some (users sm !! username info)) →
    ∀ sid info, sessions (foldl (sec_call sha256_hex md5_hex) sm cs) !! sid = Some info →
      is_Some (users (foldl (sec_call sha256_hex md5_hex) sm cs) !! username info)) as Hgen.
  { induction cs as [|c cs IH]; intros sm Hsm; [done|].
    simpl. apply IH. destruct c as [u pw now|u pw stamp now]; simpl.
    - intros sid info Hs. rewrite lookup_insert. case_decide; [by eauto|]. by eapply Hsm.
    - unfold authenticate. destruct (users sm !! u) as [ui|] eqn:Eu; [|done].
      case_bool_decide; [|done]. simpl. intros sid info.
      rewrite lookup_insert. case_decide.
      + intros [= <-]. simpl. by rewrite Eu.
      + by apply Hsm. }
  apply Hgen. intros sid info. simpl. by rewrite lookup_empty.
Qed.

(** X24: a login that does not succeed (fewer than two arguments,
    unknown user, wrong password) leaves the command line and the
    security manager as they were: the user that was logged in stays
    logged in. *)
Theorem failed_login_changes_nothing (cli : NexusCLI) (sm : SecurityManager)
    (args : list string) (stamp : string) (now : Z) :
  (∀ u pw rest, args = u :: pw :: rest →
     (authenticate' sm u pw stamp now).2 = None) →
  handle_login' cli sm args stamp now = (cli, sm).
Proof.
  intros Hfail. unfold handle_login.
  destruct args as [|u [|pw rest]]; [done..|].
  specialize (Hfail u pw rest eq_refl).
  destruct (authenticate_cases sm u pw stamp now) as (_ & Hsame & _).
  destruct (authenticate' sm u pw stamp now) as [sm' r]. simpl in *.
  subst r. by rewrite Hsame.
Qed.

(** The invariant of a command-line session. *)
Lemma shell_invariant (cs : list ShellCall) (cli : NexusCLI) (sm : SecurityManager) :
  let I := λ st : NexusCLI * SecurityManager,
    (current_user st.1 = None ↔ session_id st.1 = None)
    ∧ ∀ u, current_user st.1 = Some u →
        is_Some (users st.2 !! u)
        ∧ ∃ sid, session_id st.1 = Some sid ∧ sid ≠ ""%string
                 ∧ username <$> sessions st.2 !! sid = Some u in
  I (cli, sm) → I (foldl (shell_call sha256_hex md5_hex) (cli, sm) cs).
Proof.
  intros I. revert cli sm. induction cs as [|c cs IH]; intros cli sm HI; [done|].
  simpl. destruct (shell_call sha256_hex md5_hex (cli, sm) c) as [cli' sm'] eqn:E.
  apply IH. destruct HI as [Hnone Hsome].
  destruct c as [u pw now|args stamp now]; simpl in E.
  - injection E as <- <-. split; [done|]. simpl. intros u' Hu'.
    destruct (Hsome _ Hu') as (Hreg & sid & ? & ? & ?).
    split; [|by eauto].
    rewrite lookup_insert. case_decide; [by eauto | done].
  - unfold handle_login in E. destruct args as [|u [|pw rest]];
      [by injection E as <- <-|by injection E as <- <-|].
    destruct (authenticate_cases sm u pw stamp now) as (Hok & Hsame & Hnew).
    destruct (authenticate' sm u pw stamp now) as [sm1 r]. simpl in *.
    destruct r as [sid|].
    + destruct (Hnew sid eq_refl) as (_ & Hu & Hs & Hoth).
      destruct (proj1 Hok (mk_is_Some _ _ eq_refl)) as (info & Hinfo & _).
      destruct sid as [|c0 sid0]; simpl in E; injection E as <- <-.
      * split; [done|]. simpl. intros u' Hu'.
        destruct (Hsome _ Hu') as (Hreg & sid & ? & Hne & Hses).
        split; [by rewrite Hu|]. exists sid. split_and!; [done..|].
        by rewrite Hoth.
      * split; [done|]. simpl. intros u' [= <-].
        split; [rewrite Hu; by eauto|].
        eexists. split_and!; [done | done |]. by rewrite Hs.
    + simpl in E. injection E as <- <-. rewrite (Hsame eq_refl). by split.
Qed.

(** X25: in a command-line session that starts logged out on an empty
    security manager, after any creations of users and any logins, a
    user is shown as logged in exactly when a session id is stored, that
    user is registered, the id is not empty, and the session under it
    carries that user's name. *)
Theorem logged_in_user_has_session (cs : list ShellCall) :
  let st := foldl (shell_call sha256_hex md5_hex)
              (NexusCLI_init, SecurityManager_init) cs in
  (current_user st.1 = None ↔ session_id st.1 = None)
  ∧ ∀ u, current_user st.1 = Some u →
      is_Some (users st.2 !! u)
      ∧ ∃ sid, session_id st.1 = Some sid ∧ sid ≠ ""%string
               ∧ username <$> sessions st.2 !! sid = Some u.
Proof. apply (shell_invariant cs). split; [done|]. by intros u [=]. Qed.

Lemma replace_backslash_clean (s : string) :
  has_backslash (replace_backslash s) = false.
Proof.
  induction s as [|c s IH]; [done|]. simpl. rewrite IH, orb_false_r.
  destruct (Ascii.eqb c "\"%char) eqn:E; [done | exact E].
Qed.

Lemma replace_backslash_id (s : string) :
  has_backslash s = false → replace_backslash s = s.
Proof.
  induction s as [|c s IH]; [done|]. simpl.
  intros [Hc Hs]%orb_false_elim. by rewrite Hc, IH.
Qed.

(** X26: the file system after any run of [create_file] calls on a new
    one: no stored path holds a backslash, every entry has
    [size = len(content)] and type 'file', and the current directory and
    the directory table are what they were at the start. *)
Theorem created_files_invariant (cs : list (string * string * Z)) :
  let fs := create_files path_join FileSystem_init cs in
  current_directory fs = "/"%string
  ∧ directories fs = directories FileSystem_init
  ∧ ∀ path info, files fs !! path = Some info →
      has_backslash path = false
      ∧ file_size info = Z.of_nat (String.length (content info))
      ∧ file_type info = "file"%string.
Proof.
  unfold create_files.
  assert (∀ fs,
    (∀ path info, files fs !! path = Some info →
       has_backslash path = false
       ∧ file_size info = Z.of_nat (String.length (content info))
       ∧ file_type info = "file"%string) →
    let fs' := foldl (λ fs c, create_file path_join fs c.1.1 c.1.2 c.2) fs cs in
    current_directory fs' = current_directory fs
    ∧ directories fs' = directories fs
    ∧ ∀ path info, files fs' !! path = Some info →
       has_backslash path = false
       ∧ file_size info = Z.of_nat (String.length (content info))
       ∧ file_type info = "file"%string) as Hgen.
  { induction cs as [|[[n c] t] cs IH]; intros fs Hfs; [done|].
    simpl. apply (IH (create_file path_join fs n c t)).
    intros path info. simpl. rewrite lookup_insert. case_decide as E.
    - intros [= <-]. subst path. split_and!; [apply replace_backslash_clean | done..].
    - by apply Hfs. }
  apply (Hgen FileSystem_init). intros path info. simpl. by rewrite lookup_empty.
Qed.

(** X27: two names that give the same path once backslashes are turned
    into slashes are one file: creating the second replaces the first
    (content, size, creation time) and adds no entry.  In particular
    creating a file again under its own name overwrites it. *)
Theorem create_file_same_path (fs : FileSystem) (n1 n2 c1 c2 : string) (t1 t2 : Z) :
  replace_backslash (path_join (current_directory fs) n1)
  = replace_backslash (path_join (current_directory fs) n2) →
  create_file path_join (create_file path_join fs n1 c1 t1) n2 c2 t2
  = create_file path_join fs n2 c2 t2
  ∧ files (create_file path_join fs n2 c2 t2)
      !! replace_backslash (path_join (current_directory fs) n1)
    = Some {| content := c2; file_created_at := t2;
              file_size := Z.of_nat (String.length c2); file_type := "file" |}.
Proof.
  intros E. unfold create_file. simpl. rewrite E.
  split; [by rewrite insert_insert_eq | by rewrite lookup_insert_eq].
Qed.
End LibraryFacts.

Lemma create_user_other_names_witness :
  "admin"%string ≠ "usuario"%string
  ∧ (authenticate toy_hash toy_hash
       (create_user toy_hash (initial_users toy_hash) "usuario" "nueva" 1)
       "admin" "admin123" "t0" 2).2
    = Some "#admint0"%string.
Proof.
  assert ("admin"%string ≠ "usuario"%string) as Hne by done.
  split; [done|].
  rewrite (proj1 (create_user_other_names toy_hash toy_hash (initial_users toy_hash)
                    "admin" "usuario" "admin123" "nueva" "t0" 1 2 Hne)).
  by vm_compute.
Defined.

Lemma failed_login_changes_nothing_witness :
  let cli := {| current_user := Some "usuario"%string; session_id := Some "s1"%string |} in
  (∀ u pw rest, ["admin"; "admin124"]%string = u :: pw :: rest →
     (authenticate toy_hash toy_hash (initial_users toy_hash) u pw "t0" 2).2 = None)
  ∧ handle_login toy_hash toy_hash cli (initial_users toy_hash)
      ["admin"; "admin124"]%string "t0" 2
    = (cli, initial_users toy_hash).
Proof.
  assert (∀ u pw rest, ["admin"; "admin124"]%string = u :: pw :: rest →
     (authenticate toy_hash toy_hash (initial_users toy_hash) u pw "t0" 2).2 = None) as H.
  { intros u pw rest [= <- <- <-]. by vm_compute. }
  split; [exact H|].
  exact (failed_login_changes_nothing toy_hash toy_hash _ _ _ "t0" 2 H).
Defined.

Lemma create_file_same_path_witness :
  replace_backslash (toy_join (current_directory FileSystem_init) "a\b")
  = replace_backslash (toy_join (current_directory FileSystem_init) "a/b")
  ∧ files (create_file toy_join
             (create_file toy_join FileSystem_init "a\b" "one" 1) "a/b" "two" 2)
      !! "/a/b"%string
    = Some {| content := "two"; file_created_at := 2; file_size := 3;
              file_type := "file" |}.
Proof.
  assert (replace_backslash (toy_join (current_directory FileSystem_init) "a\b")
          = replace_backslash (toy_join (current_directory FileSystem_init) "a/b")) as E
    by reflexivity.
  split; [exact E|].
  rewrite (proj1 (create_file_same_path toy_join FileSystem_init
                    "a\b" "a/b" "one" "two" 1 2 E)).
  by vm_compute.
Defined.

Lemma sessions_of_registered_users_witness :
  let sm := foldl (sec_call toy_hash toy_hash) SecurityManager_init
              [CreateUser "admin" "admin123" 0;
               Authenticate "admin" "admin123" "t0" 1] in
  sessions sm !! "#admint0"%string
  = Some {| username := "admin"; login_time := 1 |}
  ∧ is_Some (users sm !! "admin"%string).
Proof.
  assert (sessions (foldl (sec_call toy_hash toy_hash) SecurityManager_init
              [CreateUser "admin" "admin123" 0;
               Authenticate "admin" "admin123" "t0" 1]) !! "#admint0"%string
          = Some {| username := "admin"; login_time := 1 |}) as H by (by vm_compute).
  split; [exact H|].
  exact (sessions_of_registered_users toy_hash toy_hash
           [CreateUser "admin" "admin123" 0; Authenticate "admin" "admin123" "t0" 1]
           _ _ H).
Defined.
